(** * Ingestion pipeline of the Lantah Go monorepo: a shallow embedding

    The development follows the Go sources:
    - [processors]    services/orbitr/internal/ingest/processors: the
                      pipeline drivers of change_processors.go and the
                      transaction processors with their batch size
    - [ledgerbackend] ingest/ledgerbackend: ledger_hash_store.go and the
                      posix half of the gravity runner
    - [network]       network/main.go: transaction hashing
    - [claimable_balances] the claimable balances transaction processor
                      of package processors
    - [tickerdb]      services/ticker/internal/tickerdb: bulk insertion
                      of trades
    - [integration]   the parameter-map helpers of the integration test
                      harness
    - [orbitrclient]  clients/orbitrclient/error_helpers.go

    Go values of type [error] are [option err_value] ([None] is [nil]).
    Receivers that Go mutates through pointers or interfaces (readers,
    processors, the operating system) are modelled by explicit state
    passing over a world state. *)

From stdpp Require Import base strings list gmap pretty.
From Stdlib Require Import NArith Lia.

(** ** Go preliminaries *)

Module Go.

(** The error values the embedded code can tell apart.  [io_EOF] and
    [sql_ErrNoRows] are the sentinel variables of the Go standard
    library, compared by identity in the sources ([err == io.EOF]). *)
Inductive err_value : Type :=
| io_EOF
| sql_ErrNoRows
| errors_New (msg : string)
| errors_Wrapped (msg : string) (cause : err_value).

Definition error : Type := option err_value.

Definition nil : error := None.

#[global] Instance err_value_eq_dec : EqDecision err_value.
Proof. solve_decision. Defined.

(** [errors.Wrap(err, msg)]: [nil] stays [nil], anything else is
    annotated and stays non-nil. *)
Definition errors_Wrap (err : error) (msg : string) : error :=
  match err with
  | None => None
  | Some e => Some (errors_Wrapped msg e)
  end.

(** [errors.Wrapf(err, format, arg)] for the one format the sources use:
    a message ending in [%v] applied to an unsigned integer. *)
Definition errors_Wrapf (err : error) (prefix : string) (arg : N) : error :=
  errors_Wrap err (prefix +:+ pretty arg).

Lemma errors_Wrap_nil err msg : errors_Wrap err msg = nil ↔ err = nil.
Proof. destruct err; simpl; split; intros H; by inversion H. Qed.

End Go.

Import Go.

(** ** A state-and-log monad for instrumented calls

    [M W C A] is a computation over a world [W] that returns an [A] and
    the list of external calls (of type [C]) it performed, in order. *)

Definition M (W C A : Type) : Type := W → A * W * list C.

#[global] Instance M_ret {W C} : MRet (M W C) := λ A a w, (a, w, []).

#[global] Instance M_bind {W C} : MBind (M W C) := λ A B k m w,
  let '(a, w1, l1) := m w in
  let '(b, w2, l2) := k a w1 in
  (b, w2, l1 ++ l2).

(** How a bounded run of a [for { ... }] loop ended: the function
    returned, or the iteration budget ran out with the loop still going. *)
Inductive outcome : Type :=
| Returned (err : error)
| Running.

(** ** services/orbitr/internal/ingest/processors *)

Module processors.

Section Stream.

(** [ingest.LedgerTransaction] and [ingest.Change] are opaque here; the
    driver only reads [tx.Index] (a uint32). *)
Context {LedgerTransaction Change World : Type}.
Variable Index : LedgerTransaction → N.

(** The four receivers of [StreamLedgerTransactions].  Each call sees
    and may change the shared world. *)
Variable reader_Read : World → (LedgerTransaction * error) * World.
Variable txFilterer_FilterTransaction :
  LedgerTransaction → World → (bool * error) * World.
Variable filteredTxProcessor_ProcessTransaction :
  LedgerTransaction → World → error * World.
Variable txProcessor_ProcessTransaction :
  LedgerTransaction → World → error * World.

(** The receivers of [StreamChanges]. *)
Variable changeReader_Read : World → (Change * error) * World.
Variable changeProcessor_ProcessChange : Change → World → error * World.

(** One entry of the call log, with what the call returned. *)
Inductive Call : Type :=
| CallRead (tx : LedgerTransaction) (err : error)
| CallFilter (tx : LedgerTransaction) (include : bool) (err : error)
| CallFiltered (tx : LedgerTransaction) (err : error)
| CallProcess (tx : LedgerTransaction) (err : error).

Inductive ChangeCall : Type :=
| CallReadChange (change : Change) (err : error)
| CallProcessChange (change : Change) (err : error).

Definition Read : M World Call (LedgerTransaction * error) :=
  λ w, let '(r, w') := reader_Read w in
       (r, w', [CallRead r.1 r.2]).

Definition FilterTransaction (tx : LedgerTransaction)
  : M World Call (bool * error) :=
  λ w, let '(r, w') := txFilterer_FilterTransaction tx w in
       (r, w', [CallFilter tx r.1 r.2]).

Definition filtered_ProcessTransaction (tx : LedgerTransaction)
  : M World Call error :=
  λ w, let '(e, w') := filteredTxProcessor_ProcessTransaction tx w in
       (e, w', [CallFiltered tx e]).

Definition ProcessTransaction (tx : LedgerTransaction)
  : M World Call error :=
  λ w, let '(e, w') := txProcessor_ProcessTransaction tx w in
       (e, w', [CallProcess tx e]).

Definition ReadChange : M World ChangeCall (Change * error) :=
  λ w, let '(r, w') := changeReader_Read w in
       (r, w', [CallReadChange r.1 r.2]).

Definition ProcessChange (change : Change) : M World ChangeCall error :=
  λ w, let '(e, w') := changeProcessor_ProcessChange change w in
       (e, w', [CallProcessChange change e]).

(** The body of the [for] loop of [StreamLedgerTransactions].  [Some e]
    is [return e]; [None] falls through (or [continue]s) to the next
    iteration.  The [log.Debugf] line has no effect on the result. *)
Definition StreamLedgerTransactions_body : M World Call (option error) :=
  ('(tx, err) ← Read;
   if decide (err = Some io_EOF) then mret (Some nil)
   else if decide (err ≠ nil) then
     mret (Some (errors_Wrap err "could not read transaction"))
   else
     '(include, err) ← FilterTransaction tx;
     if decide (err ≠ nil) then
       mret (Some (errors_Wrapf err "could not filter transaction " (Index tx)))
     else if negb include then
       err ← filtered_ProcessTransaction tx;
       if decide (err ≠ nil) then
         mret (Some (errors_Wrapf err "could not process transaction " (Index tx)))
       else mret None
     else
       err ← ProcessTransaction tx;
       if decide (err ≠ nil) then
         mret (Some (errors_Wrapf err "could not process transaction " (Index tx)))
       else mret None).

Fixpoint StreamLedgerTransactions (fuel : nat) : M World Call outcome :=
  match fuel with
  | O => mret Running
  | S fuel' =>
      (r ← StreamLedgerTransactions_body;
       match r with
       | Some e => mret (Returned e)
       | None => StreamLedgerTransactions fuel'
       end)
  end.

Definition StreamChanges_body : M World ChangeCall (option error) :=
  ('(change, err) ← ReadChange;
   if decide (err = Some io_EOF) then mret (Some nil)
   else if decide (err ≠ nil) then
     mret (Some (errors_Wrap err "could not read transaction"))
   else
     err ← ProcessChange change;
     if decide (err ≠ nil) then
       mret (Some (errors_Wrap err "could not process change"))
     else mret None).

Fixpoint StreamChanges (fuel : nat) : M World ChangeCall outcome :=
  match fuel with
  | O => mret Running
  | S fuel' =>
      (r ← StreamChanges_body;
       match r with
       | Some e => mret (Returned e)
       | None => StreamChanges fuel'
       end)
  end.

(** *** What the call log of a run looks like *)

Definition call_err (c : Call) : error :=
  match c with
  | CallRead _ err | CallFilter _ _ err
  | CallFiltered _ err | CallProcess _ err => err
  end.

(** A logged call failed when it returned a non-nil error; the reader's
    end-of-data signal [io.EOF] is not a failure. *)
Definition failed (c : Call) : bool :=
  match c with
  | CallRead _ err => bool_decide (err ≠ nil ∧ err ≠ Some io_EOF)
  | CallFilter _ _ err | CallFiltered _ err | CallProcess _ err =>
      bool_decide (err ≠ nil)
  end.

Definition change_call_err (c : ChangeCall) : error :=
  match c with
  | CallReadChange _ err | CallProcessChange _ err => err
  end.

Definition change_failed (c : ChangeCall) : bool :=
  match c with
  | CallReadChange _ err => bool_decide (err ≠ nil ∧ err ≠ Some io_EOF)
  | CallProcessChange _ err => bool_decide (err ≠ nil)
  end.

(** The logs [StreamLedgerTransactions] can produce, with the outcome
    each one ends in: whole iterations of three calls, closed by the
    iteration that returns (or by the budget running out). *)
Inductive trace : list Call → outcome → Prop :=
| trace_running :
    trace [] Running
| trace_eof tx :
    trace [CallRead tx (Some io_EOF)] (Returned nil)
| trace_read_failed tx e :
    e ≠ io_EOF →
    trace [CallRead tx (Some e)]
          (Returned (Some (errors_Wrapped "could not read transaction" e)))
| trace_filter_failed tx include e :
    trace [CallRead tx nil; CallFilter tx include (Some e)]
          (Returned (Some (errors_Wrapped
             ("could not filter transaction " +:+ pretty (Index tx)) e)))
| trace_filtered_failed tx e :
    trace [CallRead tx nil; CallFilter tx false nil; CallFiltered tx (Some e)]
          (Returned (Some (errors_Wrapped
             ("could not process transaction " +:+ pretty (Index tx)) e)))
| trace_process_failed tx e :
    trace [CallRead tx nil; CallFilter tx true nil; CallProcess tx (Some e)]
          (Returned (Some (errors_Wrapped
             ("could not process transaction " +:+ pretty (Index tx)) e)))
| trace_filtered tx l out :
    trace l out →
    trace (CallRead tx nil :: CallFilter tx false nil
           :: CallFiltered tx nil :: l) out
| trace_processed tx l out :
    trace l out →
    trace (CallRead tx nil :: CallFilter tx true nil
           :: CallProcess tx nil :: l) out.

Inductive change_trace : list ChangeCall → outcome → Prop :=
| change_trace_running :
    change_trace [] Running
| change_trace_eof ch :
    change_trace [CallReadChange ch (Some io_EOF)] (Returned nil)
| change_trace_read_failed ch e :
    e ≠ io_EOF →
    change_trace [CallReadChange ch (Some e)]
          (Returned (Some (errors_Wrapped "could not read transaction" e)))
| change_trace_process_failed ch e :
    change_trace [CallReadChange ch nil; CallProcessChange ch (Some e)]
          (Returned (Some (errors_Wrapped "could not process change" e)))
| change_trace_processed ch l out :
    change_trace l out →
    change_trace (CallReadChange ch nil :: CallProcessChange ch nil :: l) out.

Ltac run_step :=
  match goal with
  | |- context [reader_Read ?w] =>
      destruct (reader_Read w) as [[? [?|]] ?]
  | |- context [txFilterer_FilterTransaction ?tx ?w] =>
      destruct (txFilterer_FilterTransaction tx w) as [[[|] [?|]] ?]
  | |- context [filteredTxProcessor_ProcessTransaction ?tx ?w] =>
      destruct (filteredTxProcessor_ProcessTransaction tx w) as [[?|] ?]
  | |- context [txProcessor_ProcessTransaction ?tx ?w] =>
      destruct (txProcessor_ProcessTransaction tx w) as [[?|] ?]
  | |- context [changeReader_Read ?w] =>
      destruct (changeReader_Read w) as [[? [?|]] ?]
  | |- context [changeProcessor_ProcessChange ?c ?w] =>
      destruct (changeProcessor_ProcessChange c w) as [[?|] ?]
  | |- context [decide ?P] => destruct (decide P)
  end; simpl in *; try congruence.

Lemma StreamLedgerTransactions_trace fuel w :
  trace (StreamLedgerTransactions fuel w).2
        (StreamLedgerTransactions fuel w).1.1.
Proof.
  revert w. induction fuel as [|fuel IH]; intros w; [constructor|].
  cbn [StreamLedgerTransactions].
  cbv [mbind M_bind mret M_ret StreamLedgerTransactions_body
    Read FilterTransaction filtered_ProcessTransaction
    ProcessTransaction errors_Wrapf].
  repeat run_step; simplify_eq; try (constructor; congruence).
  all: match goal with
       | |- context [StreamLedgerTransactions ?n ?w'] =>
           specialize (IH w');
           destruct (StreamLedgerTransactions n w') as [[? ?] ?]
       end; simpl in *; by constructor.
Qed.

Lemma StreamChanges_trace fuel w :
  change_trace (StreamChanges fuel w).2 (StreamChanges fuel w).1.1.
Proof.
  revert w. induction fuel as [|fuel IH]; intros w; [constructor|].
  cbn [StreamChanges].
  cbv [mbind M_bind mret M_ret StreamChanges_body ReadChange ProcessChange].
  repeat run_step; simplify_eq; try (constructor; congruence).
  match goal with
  | |- context [StreamChanges ?n ?w'] =>
      specialize (IH w'); destruct (StreamChanges n w') as [[? ?] ?]
  end; simpl in *; by constructor.
Qed.

(** Once a run has returned, a larger iteration budget changes nothing. *)
Lemma StreamLedgerTransactions_fuel_mono fuel fuel' w e :
  (StreamLedgerTransactions fuel w).1.1 = Returned e →
  fuel ≤ fuel' →
  StreamLedgerTransactions fuel' w = StreamLedgerTransactions fuel w.
Proof.
  revert fuel' w. induction fuel as [|fuel IH]; intros fuel' w; [done|].
  destruct fuel' as [|fuel']; [lia|]. intros Hret Hle.
  assert (Hle' : fuel ≤ fuel') by lia. revert Hret.
  cbn [StreamLedgerTransactions]. cbv [mbind M_bind].
  destruct (StreamLedgerTransactions_body w) as [[[r|] w1] l1]; [done|].
  specialize (IH fuel' w1).
  destruct (StreamLedgerTransactions fuel w1) as [[o w2] l2] eqn:E.
  simpl. intros ->. by rewrite IH.
Qed.

Lemma StreamChanges_fuel_mono fuel fuel' w e :
  (StreamChanges fuel w).1.1 = Returned e →
  fuel ≤ fuel' →
  StreamChanges fuel' w = StreamChanges fuel w.
Proof.
  revert fuel' w. induction fuel as [|fuel IH]; intros fuel' w; [done|].
  destruct fuel' as [|fuel']; [lia|]. intros Hret Hle.
  assert (Hle' : fuel ≤ fuel') by lia. revert Hret.
  cbn [StreamChanges]. cbv [mbind M_bind].
  destruct (StreamChanges_body w) as [[[r|] w1] l1]; [done|].
  specialize (IH fuel' w1).
  destruct (StreamChanges fuel w1) as [[o w2] l2] eqn:E.
  simpl. intros ->. by rewrite IH.
Qed.

(** *** Consequences of the shape of the log *)

Ltac trace_simpl :=
  simplify_eq/=;
  repeat match goal with
    | H : bool_decide _ = true |- _ => apply bool_decide_eq_true in H
    | H : _ ∧ _ |- _ => destruct H
    end; try done.

Ltac trace_cases i := destruct i as [|[|[|i]]]; trace_simpl.

Ltac change_trace_cases i := destruct i as [|[|i]]; trace_simpl.

Lemma trace_failed_last l out i c :
  trace l out → l !! i = Some c → failed c = true →
  length l = S i ∧
  ∃ msg cause, call_err c = Some cause ∧
               out = Returned (Some (errors_Wrapped msg cause)).
Proof.
  intros Htr. revert i.
  induction Htr; intros i Hi Hf; trace_cases i; eauto.
  - destruct (IHHtr i) as [-> ?]; auto.
  - destruct (IHHtr i) as [-> ?]; auto.
Qed.

Lemma trace_eof_last l out i tx :
  trace l out → l !! i = Some (CallRead tx (Some io_EOF)) →
  length l = S i ∧ out = Returned nil.
Proof.
  intros Htr. revert i.
  induction Htr; intros i Hi; trace_cases i.
  - destruct (IHHtr i) as [-> ?]; auto.
  - destruct (IHHtr i) as [-> ?]; auto.
Qed.

Lemma trace_nil_eof l :
  trace l (Returned nil) →
  (∃ i tx, l !! i = Some (CallRead tx (Some io_EOF))) ∧
  (∀ j c, l !! j = Some c → failed c = false).
Proof.
  intros Htr. remember (Returned nil) as out eqn:Hout.
  induction Htr; simplify_eq.
  - split; [by exists 0, tx|]. intros j c Hj. by trace_cases j.
  - destruct IHHtr as [(i & tx' & Hi) Hnf]; [done|].
    split; [by exists (S (S (S i))), tx'|].
    intros j c Hj. trace_cases j. eauto.
  - destruct IHHtr as [(i & tx' & Hi) Hnf]; [done|].
    split; [by exists (S (S (S i))), tx'|].
    intros j c Hj. trace_cases j. eauto.
Qed.

Lemma trace_filter_next l out i tx include :
  trace l out → l !! i = Some (CallFilter tx include nil) →
  ∃ e, l !! S i = Some (if include then CallProcess tx e
                        else CallFiltered tx e).
Proof.
  intros Htr. revert i.
  induction Htr; intros i Hi; trace_cases i; eauto.
Qed.

Lemma trace_filter_prev l out i tx include err :
  trace l out → l !! i = Some (CallFilter tx include err) →
  ∃ j, i = S j ∧ l !! j = Some (CallRead tx nil).
Proof.
  intros Htr. revert i.
  induction Htr; intros i Hi; trace_cases i; eauto.
  - destruct (IHHtr i) as (j & -> & ?); eauto.
  - destruct (IHHtr i) as (j & -> & ?); eauto.
Qed.

Lemma trace_filtered_prev l out i tx e :
  trace l out → l !! i = Some (CallFiltered tx e) →
  ∃ j, i = S j ∧ l !! j = Some (CallFilter tx false nil).
Proof.
  intros Htr. revert i.
  induction Htr; intros i Hi; trace_cases i; eauto.
  - destruct (IHHtr i) as (j & -> & ?); eauto.
  - destruct (IHHtr i) as (j & -> & ?); eauto.
Qed.

Lemma trace_process_prev l out i tx e :
  trace l out → l !! i = Some (CallProcess tx e) →
  ∃ j, i = S j ∧ l !! j = Some (CallFilter tx true nil).
Proof.
  intros Htr. revert i.
  induction Htr; intros i Hi; trace_cases i; eauto.
  - destruct (IHHtr i) as (j & -> & ?); eauto.
  - destruct (IHHtr i) as (j & -> & ?); eauto.
Qed.

Lemma change_trace_failed_last l out i c :
  change_trace l out → l !! i = Some c → change_failed c = true →
  length l = S i ∧
  ∃ msg cause, change_call_err c = Some cause ∧
               out = Returned (Some (errors_Wrapped msg cause)).
Proof.
  intros Htr. revert i.
  induction Htr; intros i Hi Hf; change_trace_cases i; eauto.
  destruct (IHHtr i) as [-> ?]; auto.
Qed.

Lemma change_trace_eof_last l out i ch :
  change_trace l out → l !! i = Some (CallReadChange ch (Some io_EOF)) →
  length l = S i ∧ out = Returned nil.
Proof.
  intros Htr. revert i.
  induction Htr; intros i Hi; change_trace_cases i.
  destruct (IHHtr i) as [-> ?]; auto.
Qed.

Lemma change_trace_nil_eof l :
  change_trace l (Returned nil) →
  (∃ i ch, l !! i = Some (CallReadChange ch (Some io_EOF))) ∧
  (∀ j c, l !! j = Some c → change_failed c = false).
Proof.
  intros Htr. remember (Returned nil) as out eqn:Hout.
  induction Htr; simplify_eq.
  - split; [by exists 0, ch|]. intros j c Hj. by change_trace_cases j.
  - destruct IHHtr as [(i & ch' & Hi) Hnf]; [done|].
    split; [by exists (S (S i)), ch'|].
    intros j c Hj. change_trace_cases j; eauto.
Qed.

(** *** The driver's contract *)

(** C1 (fail-fast).  In every run of [StreamLedgerTransactions], a call
    to the reader's [Read], the filterer's [FilterTransaction] or either
    processor's [ProcessTransaction] that returns a non-nil error (other
    than the reader's end-of-data signal) is the last call the run
    makes: the function has returned, its result is that error wrapped
    (hence non-nil), and no larger iteration budget adds a call.  The
    same holds for [StreamChanges] with [Read] and [ProcessChange]. *)
Theorem Stream_stops_on_first_error fuel w :
  (∀ i c,
     (StreamLedgerTransactions fuel w).2 !! i = Some c →
     failed c = true →
     length (StreamLedgerTransactions fuel w).2 = S i ∧
     (∃ msg cause,
        call_err c = Some cause ∧
        (StreamLedgerTransactions fuel w).1.1
        = Returned (Some (errors_Wrapped msg cause))) ∧
     (∀ fuel', fuel ≤ fuel' →
        StreamLedgerTransactions fuel' w = StreamLedgerTransactions fuel w))
  ∧
  (∀ i c,
     (StreamChanges fuel w).2 !! i = Some c →
     change_failed c = true →
     length (StreamChanges fuel w).2 = S i ∧
     (∃ msg cause,
        change_call_err c = Some cause ∧
        (StreamChanges fuel w).1.1
        = Returned (Some (errors_Wrapped msg cause))) ∧
     (∀ fuel', fuel ≤ fuel' →
        StreamChanges fuel' w = StreamChanges fuel w)).
Proof.
  split; intros i c Hi Hf.
  - destruct (trace_failed_last _ _ i c
                (StreamLedgerTransactions_trace fuel w) Hi Hf)
      as (Hlen & msg & cause & Hc & Hout).
    repeat split; eauto.
    intros fuel' Hle. eapply StreamLedgerTransactions_fuel_mono; eauto.
  - destruct (change_trace_failed_last _ _ i c
                (StreamChanges_trace fuel w) Hi Hf)
      as (Hlen & msg & cause & Hc & Hout).
    repeat split; eauto.
    intros fuel' Hle. eapply StreamChanges_fuel_mono; eauto.
Qed.

(** C2 (routing).  In every run of [StreamLedgerTransactions], when the
    filterer answers [(false, nil)] for a transaction the very next call
    is [filteredTxProcessor.ProcessTransaction] on that transaction, and
    when it answers [(true, nil)] the very next call is
    [txProcessor.ProcessTransaction] on it.  Conversely the filtered
    processor is only ever called right after a [(false, nil)] answer for
    the same transaction and the full processor only right after a
    [(true, nil)] answer, and every filterer call is on the transaction
    the reader has just yielded.  So an excluded transaction never
    reaches [txProcessor] and an included one never reaches
    [filteredTxProcessor]. *)
Theorem StreamLedgerTransactions_routes_by_filter fuel w i tx :
  let log := (StreamLedgerTransactions fuel w).2 in
  (log !! i = Some (CallFilter tx false nil) →
     ∃ e, log !! S i = Some (CallFiltered tx e)) ∧
  (log !! i = Some (CallFilter tx true nil) →
     ∃ e, log !! S i = Some (CallProcess tx e)) ∧
  (∀ e, log !! S i = Some (CallFiltered tx e) →
     log !! i = Some (CallFilter tx false nil)) ∧
  (∀ e, log !! S i = Some (CallProcess tx e) →
     log !! i = Some (CallFilter tx true nil)) ∧
  (∀ include e, log !! S i = Some (CallFilter tx include e) →
     log !! i = Some (CallRead tx nil)).
Proof.
  intros log. pose proof (StreamLedgerTransactions_trace fuel w) as Htr.
  fold log in Htr. repeat split.
  - intros Hi. by destruct (trace_filter_next _ _ _ _ _ Htr Hi) as [e ?]; eauto.
  - intros Hi. by destruct (trace_filter_next _ _ _ _ _ Htr Hi) as [e ?]; eauto.
  - intros e Hi.
    destruct (trace_filtered_prev _ _ _ _ _ Htr Hi) as (j & [= <-] & ?); done.
  - intros e Hi.
    destruct (trace_process_prev _ _ _ _ _ Htr Hi) as (j & [= <-] & ?); done.
  - intros include e Hi.
    destruct (trace_filter_prev _ _ _ _ _ _ Htr Hi) as (j & [= <-] & ?); done.
Qed.

(** C4 (end of data).  [StreamLedgerTransactions] returns [nil] exactly
    when its reader's [Read] has answered [io.EOF]; that read is then the
    last call of the run, no call before it failed, and the result stays
    [nil] under any larger iteration budget.  The same holds for
    [StreamChanges]. *)
Theorem Stream_nil_iff_end_of_data fuel w :
  ((StreamLedgerTransactions fuel w).1.1 = Returned nil ↔
     ∃ i tx, (StreamLedgerTransactions fuel w).2 !! i
             = Some (CallRead tx (Some io_EOF))) ∧
  (∀ i tx,
     (StreamLedgerTransactions fuel w).2 !! i
     = Some (CallRead tx (Some io_EOF)) →
     length (StreamLedgerTransactions fuel w).2 = S i ∧
     (∀ j c, (StreamLedgerTransactions fuel w).2 !! j = Some c →
             failed c = false) ∧
     (∀ fuel', fuel ≤ fuel' →
        (StreamLedgerTransactions fuel' w).1.1 = Returned nil)) ∧
  ((StreamChanges fuel w).1.1 = Returned nil ↔
     ∃ i ch, (StreamChanges fuel w).2 !! i
             = Some (CallReadChange ch (Some io_EOF))) ∧
  (∀ i ch,
     (StreamChanges fuel w).2 !! i
     = Some (CallReadChange ch (Some io_EOF)) →
     length (StreamChanges fuel w).2 = S i ∧
     (∀ j c, (StreamChanges fuel w).2 !! j = Some c →
             change_failed c = false) ∧
     (∀ fuel', fuel ≤ fuel' →
        (StreamChanges fuel' w).1.1 = Returned nil)).
Proof.
  pose proof (StreamLedgerTransactions_trace fuel w) as Htr.
  pose proof (StreamChanges_trace fuel w) as Hch.
  split; [|split; [|split]].
  - split.
    + intros Hnil. rewrite Hnil in Htr. by apply trace_nil_eof in Htr as [? _].
    + intros (i & tx & Hi). by destruct (trace_eof_last _ _ _ _ Htr Hi).
  - intros i tx Hi. destruct (trace_eof_last _ _ _ _ Htr Hi) as [Hlen Hnil].
    split; [done|]. split.
    + rewrite Hnil in Htr. by apply trace_nil_eof in Htr as [_ ?].
    + intros fuel' Hle.
      by rewrite (StreamLedgerTransactions_fuel_mono _ _ _ _ Hnil Hle).
  - split.
    + intros Hnil. rewrite Hnil in Hch.
      by apply change_trace_nil_eof in Hch as [? _].
    + intros (i & ch & Hi). by destruct (change_trace_eof_last _ _ _ _ Hch Hi).
  - intros i ch Hi.
    destruct (change_trace_eof_last _ _ _ _ Hch Hi) as [Hlen Hnil].
    split; [done|]. split.
    + rewrite Hnil in Hch. by apply change_trace_nil_eof in Hch as [_ ?].
    + intros fuel' Hle. by rewrite (StreamChanges_fuel_mono _ _ _ _ Hnil Hle).
Qed.

(** *** Order and completeness of a run *)

(** The transactions the reader yielded, those the filterer was asked
    about and those handed to one of the two processors, each in call
    order. *)
Definition yielded (log : list Call) : list LedgerTransaction :=
  omap (λ c, match c with CallRead tx None => Some tx | _ => None end) log.

Definition filtered (log : list Call) : list LedgerTransaction :=
  omap (λ c, match c with CallFilter tx _ _ => Some tx | _ => None end) log.

Definition handled (log : list Call) : list LedgerTransaction :=
  omap (λ c, match c with
             | CallFiltered tx _ | CallProcess tx _ => Some tx
             | _ => None
             end) log.

Definition yielded_changes (log : list ChangeCall) : list Change :=
  omap (λ c, match c with CallReadChange ch None => Some ch | _ => None end)
       log.

Definition handled_changes (log : list ChangeCall) : list Change :=
  omap (λ c, match c with CallProcessChange ch _ => Some ch | _ => None end)
       log.

(** The message a failure of the given call is wrapped in. *)
Definition stage_message (c : Call) : string :=
  match c with
  | CallRead _ _ => "could not read transaction"
  | CallFilter tx _ _ => "could not filter transaction " +:+ pretty (Index tx)
  | CallFiltered tx _ | CallProcess tx _ =>
      "could not process transaction " +:+ pretty (Index tx)
  end.

Definition change_stage_message (c : ChangeCall) : string :=
  match c with
  | CallReadChange _ _ => "could not read transaction"
  | CallProcessChange _ _ => "could not process change"
  end.

Lemma trace_order l out :
  trace l out →
  handled l `prefix_of` filtered l ∧
  filtered l `prefix_of` yielded l ∧
  length (yielded l) ≤ S (length (handled l)) ∧
  (out = Returned nil ∨ out = Running →
   handled l = yielded l ∧ filtered l = yielded l).
Proof.
  induction 1 as [| | | | | | tx l out Htr IH | tx l out Htr IH]; simpl.
  - split; [done|]. split; [done|]. split; [lia|done].
  - split; [done|]. split; [done|]. split; [lia|done].
  - split; [done|]. split; [done|]. split; [lia|]. by intros [|].
  - split; [apply prefix_nil|]. split; [done|]. split; [lia|]. by intros [|].
  - split; [done|]. split; [done|]. split; [lia|]. by intros [|].
  - split; [done|]. split; [done|]. split; [lia|]. by intros [|].
  - destruct IH as (Hhf & Hfy & Hlen & Heq).
    split; [by apply prefix_cons|]. split; [by apply prefix_cons|].
    split; [lia|]. intros Hout. destruct (Heq Hout) as [-> ->]. done.
  - destruct IH as (Hhf & Hfy & Hlen & Heq).
    split; [by apply prefix_cons|]. split; [by apply prefix_cons|].
    split; [lia|]. intros Hout. destruct (Heq Hout) as [-> ->]. done.
Qed.

Lemma change_trace_order l out :
  change_trace l out →
  handled_changes l `prefix_of` yielded_changes l ∧
  length (yielded_changes l) ≤ S (length (handled_changes l)) ∧
  (out = Returned nil ∨ out = Running →
   handled_changes l = yielded_changes l).
Proof.
  induction 1 as [| | | | ch l out Htr IH]; simpl.
  - split; [done|]. split; [lia|done].
  - split; [done|]. split; [lia|done].
  - split; [done|]. split; [lia|]. by intros [|].
  - split; [done|]. split; [lia|]. by intros [|].
  - destruct IH as (Hpre & Hlen & Heq).
    split; [by apply prefix_cons|]. split; [lia|].
    intros Hout. by rewrite (Heq Hout).
Qed.

Lemma trace_error_origin l e :
  trace l (Returned (Some e)) →
  ∃ c cause, last l = Some c ∧ failed c = true ∧
             call_err c = Some cause ∧
             e = errors_Wrapped (stage_message c) cause.
Proof.
  intros Htr. remember (Returned (Some e)) as out eqn:Hout.
  induction Htr as [| |tx e' Hne| | | | tx l out Htr IH | tx l out Htr IH];
    simplify_eq.
  - exists (CallRead tx (Some e')), e'. repeat split.
    apply bool_decide_eq_true. split; [done|congruence].
  - eexists (CallFilter _ _ _), _. by repeat split.
  - eexists (CallFiltered _ _), _. by repeat split.
  - eexists (CallProcess _ _), _. by repeat split.
  - destruct IH as (c & cause & Hlast & ?); [done|].
    exists c, cause. split; [|done].
    destruct l; [done|]. by rewrite !last_cons_cons.
  - destruct IH as (c & cause & Hlast & ?); [done|].
    exists c, cause. split; [|done].
    destruct l; [done|]. by rewrite !last_cons_cons.
Qed.

Lemma change_trace_error_origin l e :
  change_trace l (Returned (Some e)) →
  ∃ c cause, last l = Some c ∧ change_failed c = true ∧
             change_call_err c = Some cause ∧
             e = errors_Wrapped (change_stage_message c) cause.
Proof.
  intros Htr. remember (Returned (Some e)) as out eqn:Hout.
  induction Htr as [| |ch e' Hne| | ch l out Htr IH]; simplify_eq.
  - exists (CallReadChange ch (Some e')), e'. repeat split.
    apply bool_decide_eq_true. split; [done|congruence].
  - eexists (CallProcessChange _ _), _. by repeat split.
  - destruct IH as (c & cause & Hlast & ?); [done|].
    exists c, cause. split; [|done].
    destruct l; [done|]. by rewrite !last_cons_cons.
Qed.

(** X1.  In every run of [StreamLedgerTransactions] the transactions
    handed to the two processors are, in call order, an initial part of
    the transactions the filterer was asked about, which are an initial
    part of those the reader yielded; at most one yielded transaction has
    not reached a processor; and when the run has returned [nil] every
    yielded transaction was filtered and handed to a processor, exactly
    once and in the reader's order. *)
Theorem StreamLedgerTransactions_preserves_order fuel w :
  let log := (StreamLedgerTransactions fuel w).2 in
  handled log `prefix_of` filtered log ∧
  filtered log `prefix_of` yielded log ∧
  length (yielded log) ≤ S (length (handled log)) ∧
  ((StreamLedgerTransactions fuel w).1.1 = Returned nil →
   handled log = yielded log ∧ filtered log = yielded log).
Proof.
  intros log.
  destruct (trace_order _ _ (StreamLedgerTransactions_trace fuel w))
    as (H1 & H2 & H3 & H4).
  repeat split; try done; apply H4; by left.
Qed.

(** X2.  In every run of [StreamChanges] the changes handed to the change
    processor are, in call order, an initial part of the changes the
    reader yielded, all of them but at most the last; when the run has
    returned [nil] they are exactly the yielded changes, in order. *)
Theorem StreamChanges_preserves_order fuel w :
  let log := (StreamChanges fuel w).2 in
  handled_changes log `prefix_of` yielded_changes log ∧
  length (yielded_changes log) ≤ S (length (handled_changes log)) ∧
  ((StreamChanges fuel w).1.1 = Returned nil →
   handled_changes log = yielded_changes log).
Proof.
  intros log.
  destruct (change_trace_order _ _ (StreamChanges_trace fuel w))
    as (H1 & H2 & H3).
  repeat split; try done. intros Hout. apply H3. by left.
Qed.

(** X3.  A non-nil result of either driver always stems from the last
    call of the run: that call failed, its error is returned unchanged
    under one wrapper, and the wrapper's message names the stage (and, for
    the filterer and the processors, the [Index] of the transaction the
    call was made on).  A failed change read is reported as "could not
    read transaction" too. *)
Theorem Stream_error_names_failed_call fuel w e :
  ((StreamLedgerTransactions fuel w).1.1 = Returned (Some e) →
   ∃ c cause,
     last (StreamLedgerTransactions fuel w).2 = Some c ∧
     failed c = true ∧ call_err c = Some cause ∧
     e = errors_Wrapped (stage_message c) cause) ∧
  ((StreamChanges fuel w).1.1 = Returned (Some e) →
   ∃ c cause,
     last (StreamChanges fuel w).2 = Some c ∧
     change_failed c = true ∧ change_call_err c = Some cause ∧
     e = errors_Wrapped (change_stage_message c) cause).
Proof.
  split; intros Hout.
  - apply trace_error_origin. rewrite <- Hout.
    apply StreamLedgerTransactions_trace.
  - apply change_trace_error_origin. rewrite <- Hout.
    apply StreamChanges_trace.
Qed.

End Stream.

(** A scripted pipeline used to exercise the driver: the world is the list
    of transactions (or changes) the reader has not yielded yet, a
    transaction is its own index, the filterer includes even indices, and
    the full processor (and the change processor) rejects number 8. *)
Module StreamExample.

Definition reader_Read (w : list N) : (N * error) * list N :=
  match w with
  | [] => ((0%N, Some io_EOF), [])
  | tx :: w' => ((tx, nil), w')
  end.

Definition FilterTransaction (tx : N) (w : list N) : (bool * error) * list N :=
  ((N.even tx, nil), w).

Definition filtered_ProcessTransaction (tx : N) (w : list N) : error * list N :=
  (nil, w).

Definition ProcessTransaction (tx : N) (w : list N) : error * list N :=
  (if (tx =? 8)%N then Some (errors_New "batch insert failed") else nil, w).

Definition run_transactions (fuel : nat) (w : list N) :=
  StreamLedgerTransactions id reader_Read FilterTransaction
    filtered_ProcessTransaction ProcessTransaction fuel w.

Definition run_changes (fuel : nat) (w : list N) :=
  StreamChanges reader_Read ProcessTransaction fuel w.

Example run_transactions_fails :
  run_transactions 10 [3; 8; 5]%N
  = (Returned (Some (errors_Wrapped "could not process transaction 8"
                       (errors_New "batch insert failed"))),
     [5%N],
     [CallRead 3%N nil; CallFilter 3%N false nil; CallFiltered 3%N nil;
      CallRead 8%N nil; CallFilter 8%N true nil;
      CallProcess 8%N (Some (errors_New "batch insert failed"))]).
Proof. vm_compute. reflexivity. Qed.

Example run_transactions_succeeds :
  run_transactions 10 [3; 4]%N
  = (Returned nil, [],
     [CallRead 3%N nil; CallFilter 3%N false nil; CallFiltered 3%N nil;
      CallRead 4%N nil; CallFilter 4%N true nil; CallProcess 4%N nil;
      CallRead 0%N (Some io_EOF)]).
Proof. vm_compute. reflexivity. Qed.

Example run_changes_fails :
  run_changes 10 [3; 8; 5]%N
  = (Returned (Some (errors_Wrapped "could not process change"
                       (errors_New "batch insert failed"))),
     [5%N],
     [CallReadChange 3%N nil; CallProcessChange 3%N nil;
      CallReadChange 8%N nil;
      CallProcessChange 8%N (Some (errors_New "batch insert failed"))]).
Proof. vm_compute. reflexivity. Qed.

End StreamExample.

Lemma Stream_stops_on_first_error_witness :
  length (StreamExample.run_transactions 4 [3; 8; 5]%N).2 = 6 ∧
  length (StreamExample.run_changes 4 [3; 8; 5]%N).2 = 4.
Proof.
  destruct (Stream_stops_on_first_error id StreamExample.reader_Read
              StreamExample.FilterTransaction
              StreamExample.filtered_ProcessTransaction
              StreamExample.ProcessTransaction
              StreamExample.reader_Read StreamExample.ProcessTransaction
              4 [3; 8; 5]%N) as [Htx Hch].
  split.
  - exact (proj1 (Htx 5 (CallProcess 8%N (Some (errors_New "batch insert failed")))
                    eq_refl eq_refl)).
  - exact (proj1 (Hch 3 (CallProcessChange 8%N
                           (Some (errors_New "batch insert failed")))
                    eq_refl eq_refl)).
Defined.

Lemma StreamLedgerTransactions_routes_by_filter_witness :
  (∃ e, (StreamExample.run_transactions 4 [3; 8; 5]%N).2 !! 2
        = Some (CallFiltered 3%N e)) ∧
  (∃ e, (StreamExample.run_transactions 4 [3; 8; 5]%N).2 !! 5
        = Some (CallProcess 8%N e)).
Proof.
  split.
  - exact (proj1 (StreamLedgerTransactions_routes_by_filter id
             StreamExample.reader_Read StreamExample.FilterTransaction
             StreamExample.filtered_ProcessTransaction
             StreamExample.ProcessTransaction 4 [3; 8; 5]%N 1 3%N) eq_refl).
  - exact (proj1 (proj2 (StreamLedgerTransactions_routes_by_filter id
             StreamExample.reader_Read StreamExample.FilterTransaction
             StreamExample.filtered_ProcessTransaction
             StreamExample.ProcessTransaction 4 [3; 8; 5]%N 4 8%N)) eq_refl).
Defined.

Lemma Stream_nil_iff_end_of_data_witness :
  (StreamExample.run_transactions 3 [3; 4]%N).1.1 = Returned nil ∧
  length (StreamExample.run_changes 3 [3; 4]%N).2 = 5.
Proof.
  destruct (Stream_nil_iff_end_of_data id StreamExample.reader_Read
              StreamExample.FilterTransaction
              StreamExample.filtered_ProcessTransaction
              StreamExample.ProcessTransaction
              StreamExample.reader_Read StreamExample.ProcessTransaction
              3 [3; 4]%N) as (Htx & _ & _ & Hch).
  split.
  - apply Htx. exists 6, 0%N. reflexivity.
  - exact (proj1 (Hch 4 0%N eq_refl)).
Defined.

Lemma StreamLedgerTransactions_preserves_order_witness :
  handled (StreamExample.run_transactions 3 [3; 4]%N).2 = [3; 4]%N.
Proof.
  exact (proj1 (proj2 (proj2 (proj2
           (StreamLedgerTransactions_preserves_order id
              StreamExample.reader_Read StreamExample.FilterTransaction
              StreamExample.filtered_ProcessTransaction
              StreamExample.ProcessTransaction 3 [3; 4]%N))) eq_refl)).
Defined.

Lemma StreamChanges_preserves_order_witness :
  handled_changes (StreamExample.run_changes 3 [3; 4]%N).2 = [3; 4]%N.
Proof.
  exact (proj2 (proj2
           (StreamChanges_preserves_order StreamExample.reader_Read
              StreamExample.ProcessTransaction 3 [3; 4]%N)) eq_refl).
Defined.

Lemma Stream_error_names_failed_call_witness :
  ∃ c cause,
    last (StreamExample.run_transactions 4 [3; 8; 5]%N).2 = Some c ∧
    failed c = true ∧ call_err c = Some cause ∧
    errors_Wrapped "could not process transaction 8"
      (errors_New "batch insert failed")
    = errors_Wrapped (stage_message id c) cause.
Proof.
  exact (proj1 (Stream_error_names_failed_call id
                  StreamExample.reader_Read StreamExample.FilterTransaction
                  StreamExample.filtered_ProcessTransaction
                  StreamExample.ProcessTransaction
                  StreamExample.reader_Read StreamExample.ProcessTransaction
                  4 [3; 8; 5]%N
                  (errors_Wrapped "could not process transaction 8"
                     (errors_New "batch insert failed")))
               eq_refl).
Defined.

(** *** The transaction processors and their batch insert builder *)

Section TransactionProcessor.

Context {LedgerTransaction : Type}.

(** A row of the transactions table: the transaction and the sequence of
    the ledger it belongs to. *)
Definition Row : Type := LedgerTransaction * N.

(** One multi-row [INSERT]: the table and the rows it carries. *)
Definition Statement : Type := string * list Row.

(** The store as the processors see it: the insert statements sent so far,
    oldest first. *)
Definition Store : Type := list Statement.

(** Whether the store accepts a statement; out of the processors' hands. *)
Variable session_Exec : Store → Statement → error.

Definition maxBatchSize : N := 100000.

(** Modelled from the spec: [history.TransactionBatchInsertBuilder] and
    the two [history.QTransactions] constructors for it are not among the
    sources.  Per the specification a builder accumulates rows in memory
    and flushes them via batched inserts capped at a fixed maximum batch
    size: [Add] appends a row and flushes once the pending rows reach
    [MaxBatchSize]; [Exec] sends the pending rows, if any, as one
    statement and empties the batch when the store accepted it. *)
Record TransactionBatchInsertBuilder : Type := {
  Table : string;
  MaxBatchSize : N;
  rows : list Row;
}.

Definition NewTransactionBatchInsertBuilder (maxBatchSize : N)
  : TransactionBatchInsertBuilder :=
  {| Table := "history_transactions";
     MaxBatchSize := maxBatchSize; rows := [] |}.

Definition NewTransactionFilteredTmpBatchInsertBuilder (maxBatchSize : N)
  : TransactionBatchInsertBuilder :=
  {| Table := "history_transactions_filtered_tmp";
     MaxBatchSize := maxBatchSize; rows := [] |}.

Definition with_rows (b : TransactionBatchInsertBuilder) (l : list Row)
  : TransactionBatchInsertBuilder :=
  {| Table := Table b; MaxBatchSize := MaxBatchSize b; rows := l |}.

Definition batch_Exec (b : TransactionBatchInsertBuilder) (db : Store)
  : error * TransactionBatchInsertBuilder * Store :=
  match rows b with
  | [] => (nil, b, db)
  | _ :: _ =>
      let stmt := (Table b, rows b) in
      match session_Exec db stmt with
      | None => (nil, with_rows b [], db ++ [stmt])
      | Some e => (Some e, b, db ++ [stmt])
      end
  end.

Definition batch_Add (b : TransactionBatchInsertBuilder)
    (transaction : LedgerTransaction) (sequence : N) (db : Store)
  : error * TransactionBatchInsertBuilder * Store :=
  let b' := with_rows b (rows b ++ [(transaction, sequence)]) in
  if (MaxBatchSize b' <=? N.of_nat (length (rows b')))%N
  then batch_Exec b' db
  else (nil, b', db).

(** [TransactionProcessor]; the [transactionsQ] field is the handle on the
    store, which the model passes explicitly. *)
Record TransactionProcessor : Type := {
  sequence : N;
  batch : TransactionBatchInsertBuilder;
}.

Definition NewTransactionFilteredTmpProcessor (sequence : N)
  : TransactionProcessor :=
  {| sequence := sequence;
     batch := NewTransactionFilteredTmpBatchInsertBuilder maxBatchSize |}.

Definition NewTransactionProcessor (sequence : N) : TransactionProcessor :=
  {| sequence := sequence;
     batch := NewTransactionBatchInsertBuilder maxBatchSize |}.

Definition TransactionProcessor_ProcessTransaction (p : TransactionProcessor)
    (transaction : LedgerTransaction) (db : Store)
  : error * TransactionProcessor * Store :=
  let '(err, b, db') := batch_Add (batch p) transaction (sequence p) db in
  (errors_Wrap err "Error batch inserting transaction rows",
   {| sequence := sequence p; batch := b |}, db').

Definition TransactionProcessor_Commit (p : TransactionProcessor) (db : Store)
  : error * TransactionProcessor * Store :=
  let '(err, b, db') := batch_Exec (batch p) db in
  (errors_Wrap err "Error flushing transaction batch",
   {| sequence := sequence p; batch := b |}, db').

(** The processors the pipeline can hold while a ledger is being
    ingested: freshly built by one of the two constructors, then fed
    transactions and committed for as long as no call has failed (the
    driver stops at the first error). *)
Inductive in_use : TransactionProcessor → Store → Prop :=
| in_use_new sequence :
    in_use (NewTransactionProcessor sequence) []
| in_use_new_filtered sequence :
    in_use (NewTransactionFilteredTmpProcessor sequence) []
| in_use_process p db transaction p' db' :
    in_use p db →
    TransactionProcessor_ProcessTransaction p transaction db = (nil, p', db') →
    in_use p' db'
| in_use_commit p db p' db' :
    in_use p db →
    TransactionProcessor_Commit p db = (nil, p', db') →
    in_use p' db'.

(** Every statement of the store carries at most [n] rows. *)
Definition capped (n : N) (db : Store) : Prop :=
  Forall (λ stmt : Statement, (N.of_nat (length stmt.2) ≤ n)%N) db.

(** The invariant behind the cap: the builder was made with
    [maxBatchSize], holds fewer pending rows than that, and the store is
    capped. *)
Definition batch_inv (p : TransactionProcessor) (db : Store) : Prop :=
  MaxBatchSize (batch p) = maxBatchSize ∧
  (N.of_nat (length (rows (batch p))) < maxBatchSize)%N ∧
  capped maxBatchSize db.

Lemma capped_snoc n db (stmt : Statement) :
  capped n db → (N.of_nat (length stmt.2) ≤ n)%N → capped n (db ++ [stmt]).
Proof. intros Hdb Hs. apply Forall_app. split; [done|]. by constructor. Qed.

Lemma batch_Exec_capped n b db :
  (N.of_nat (length (rows b)) ≤ n)%N → capped n db →
  capped n (batch_Exec b db).2.
Proof.
  intros Hb Hdb. unfold batch_Exec.
  destruct (rows b) as [|r l] eqn:Hr; [done|].
  destruct (session_Exec db _); simpl; by apply capped_snoc.
Qed.

Lemma batch_Exec_nil b db b' db' :
  batch_Exec b db = (nil, b', db') →
  rows b' = [] ∧ MaxBatchSize b' = MaxBatchSize b.
Proof.
  unfold batch_Exec. destruct (rows b) as [|r l] eqn:Hr.
  - by intros [= <- <-].
  - destruct (session_Exec db _); [done|]. by intros [= <- <-].
Qed.

Lemma batch_Add_capped n b transaction sequence db :
  MaxBatchSize b = n →
  (N.of_nat (length (rows b)) < n)%N → capped n db →
  capped n (batch_Add b transaction sequence db).2.
Proof.
  intros Hmax Hb Hdb. unfold batch_Add. simpl.
  assert (N.of_nat (length (rows b ++ [(transaction, sequence)])) ≤ n)%N
    by (rewrite length_app; simpl; lia).
  destruct (_ <=? _)%N; [|done]. by apply batch_Exec_capped.
Qed.

Lemma batch_Add_nil n b transaction sequence db b' db' :
  MaxBatchSize b = n → (0 < n)%N →
  (N.of_nat (length (rows b)) < n)%N →
  batch_Add b transaction sequence db = (nil, b', db') →
  MaxBatchSize b' = n ∧ (N.of_nat (length (rows b')) < n)%N.
Proof.
  intros Hmax Hpos Hb. unfold batch_Add. simpl. rewrite Hmax.
  destruct (N.leb_spec n (N.of_nat (length (rows b ++ [(transaction, sequence)]))))
    as [Hle|Hlt].
  - intros [Hr Hm]%batch_Exec_nil. simpl in Hm. rewrite Hr. simpl. lia.
  - by intros [= <- <-].
Qed.

Lemma in_use_batch_inv p db : in_use p db → batch_inv p db.
Proof.
  induction 1 as [seq|seq|p db tx p' db' Hp IH Hstep|p db p' db' Hp IH Hstep].
  - split; [done|]. split; [done|]. constructor.
  - split; [done|]. split; [done|]. constructor.
  - destruct IH as (Hmax & Hrows & Hdb).
    unfold TransactionProcessor_ProcessTransaction in Hstep.
    pose proof (batch_Add_capped _ (batch p) tx (sequence p) db Hmax Hrows Hdb)
      as Hcap.
    destruct (batch_Add (batch p) tx (sequence p) db) as [[err b] db1] eqn:Hadd.
    injection Hstep as Herr <- <-.
    apply errors_Wrap_nil in Herr. subst err.
    destruct (batch_Add_nil _ _ _ _ _ _ _ Hmax eq_refl Hrows Hadd).
    split; [done|]. by split.
  - destruct IH as (Hmax & Hrows & Hdb).
    unfold TransactionProcessor_Commit in Hstep.
    assert (capped maxBatchSize (batch_Exec (batch p) db).2) as Hcap
      by (apply batch_Exec_capped; [lia|done]).
    destruct (batch_Exec (batch p) db) as [[err b] db1] eqn:Hexec.
    injection Hstep as Herr <- <-.
    apply errors_Wrap_nil in Herr. subst err.
    destruct (batch_Exec_nil _ _ _ _ Hexec) as [Hr Hm].
    split; [simpl; congruence|]. split; [by simpl; rewrite Hr|done].
Qed.

(** C7 (batch cap).  Both constructors build their batch insert builder
    with the one constant [maxBatchSize] = 100000; and for every processor
    a ledger's ingestion can hold, the builder still has that size, every
    insert statement sent so far carries at most 100000 rows, and so does
    every statement the next [ProcessTransaction] or [Commit] sends
    (whether or not the store accepts it). *)
Theorem TransactionProcessor_batches_capped :
  maxBatchSize = 100000%N ∧
  (∀ sequence,
     MaxBatchSize (batch (NewTransactionProcessor sequence)) = maxBatchSize ∧
     MaxBatchSize (batch (NewTransactionFilteredTmpProcessor sequence))
     = maxBatchSize) ∧
  (∀ p db,
     in_use p db →
     MaxBatchSize (batch p) = 100000%N ∧
     capped 100000 db ∧
     (∀ transaction,
        capped 100000
          (TransactionProcessor_ProcessTransaction p transaction db).2) ∧
     capped 100000 (TransactionProcessor_Commit p db).2).
Proof.
  split; [done|]. split; [done|].
  intros p db (Hmax & Hrows & Hdb)%in_use_batch_inv.
  split; [done|]. split; [done|]. split.
  - intros tx. unfold TransactionProcessor_ProcessTransaction.
    pose proof (batch_Add_capped _ (batch p) tx (sequence p) db Hmax Hrows Hdb).
    by destruct (batch_Add _ _ _ _) as [[? ?] ?].
  - unfold TransactionProcessor_Commit.
    assert (capped maxBatchSize (batch_Exec (batch p) db).2)
      by (apply batch_Exec_capped; [lia|done]).
    by destruct (batch_Exec _ _) as [[? ?] ?].
Qed.

End TransactionProcessor.

(** A builder of size 2 flushes on the second row and again on [Exec]. *)
Example batch_flushes_at_cap :
  let accept : Store → Statement → error := λ _ _, nil in
  let b0 := NewTransactionBatchInsertBuilder 2 in
  let '(_, b1, db1) := batch_Add accept b0 10%N 7%N [] in
  let '(_, b2, db2) := batch_Add accept b1 11%N 7%N db1 in
  let '(_, b3, db3) := batch_Add accept b2 12%N 7%N db2 in
  let '(_, b4, db4) := batch_Exec accept b3 db3 in
  db2 = [("history_transactions", [(10%N, 7%N); (11%N, 7%N)])] ∧
  rows b3 = [(12%N, 7%N)] ∧
  db4 = [("history_transactions", [(10%N, 7%N); (11%N, 7%N)]);
         ("history_transactions", [(12%N, 7%N)])] ∧
  rows b4 = [].
Proof. vm_compute. repeat split. Qed.

Lemma TransactionProcessor_batches_capped_witness :
  capped 100000
    (TransactionProcessor_Commit (λ _ _, nil)
       {| sequence := 7%N;
          batch := with_rows (NewTransactionBatchInsertBuilder maxBatchSize)
                     [(10%N, 7%N)] |}
       []).2.
Proof.
  refine (proj2 (proj2 (proj2
    (proj2 (proj2 (TransactionProcessor_batches_capped (λ _ _, nil))) _ _ _)))).
  eapply in_use_process; [apply (in_use_new _ 7%N)|]. reflexivity.
Defined.

End processors.

(** ** ingest/ledgerbackend *)

Module ledgerbackend.

(** *** ledger_hash_store.go *)

(** The query built with squirrel:
    [Select(column).From(table).Limit(n).Where(pred, arg)]. *)
Record SelectBuilder : Type := {
  sel_column : string;
  sel_from : string;
  sel_limit : N;
  sel_where : string * N;
}.

(** [db.SessionInterface], as far as the hash store uses it.  [Get] scans
    the first row of the result into the [string] destination it is handed
    (Go passes [&hash]) and reports an error; [NoRows] classifies an
    error. *)
Record SessionInterface : Type := {
  Get : SelectBuilder → string → string * error;
  NoRows : error → bool;
}.

Record OrbitRDBLedgerHashStore : Type := {
  session : SessionInterface;
}.

Definition NewOrbitRDBLedgerHashStore (session : SessionInterface)
  : OrbitRDBLedgerHashStore :=
  {| session := session |}.

Definition GetLedgerHash (h : OrbitRDBLedgerHashStore) (seq : N)
  : string * bool * error :=
  let sql := {| sel_column := "hl.ledger_hash";
                sel_from := "history_ledgers hl";
                sel_limit := 1;
                sel_where := ("sequence = ?", seq) |} in
  let hash := "" in
  let '(hash, err) := Get (session h) sql hash in
  if NoRows (session h) err then (hash, false, nil)
  else (hash, true, err).

(** The query [GetLedgerHash] sends for a sequence number. *)
Definition ledger_hash_query (seq : N) : SelectBuilder :=
  {| sel_column := "hl.ledger_hash";
     sel_from := "history_ledgers hl";
     sel_limit := 1;
     sel_where := ("sequence = ?", seq) |}.

(** What it means for a session to answer from a [history_ledgers] table
    (sequence to ledger hash): a present row is scanned into the
    destination with a nil error; an absent row leaves the destination as
    it was and yields an error that [NoRows] recognises; and [NoRows]
    does not fire on [nil]. *)
Record serves (s : SessionInterface) (history_ledgers : gmap N string)
  : Prop := {
  serves_row seq hash dest :
    history_ledgers !! seq = Some hash →
    Get s (ledger_hash_query seq) dest = (hash, nil);
  serves_no_row seq dest :
    history_ledgers !! seq = None →
    ∃ err, Get s (ledger_hash_query seq) dest = (dest, err) ∧
           NoRows s err = true;
  serves_nil : NoRows s nil = false;
}.

(** A session over orbitr's database, standing in for the one of
    support/db (outside these sources).  [fault], when set, is the error
    every query fails with (connection lost, statement cancelled, ...);
    otherwise the table answers, with [sql.ErrNoRows] for an absent row. *)
Definition db_session (history_ledgers : gmap N string) (fault : error)
  : SessionInterface :=
  {| Get q dest :=
       match fault with
       | Some e => (dest, Some e)
       | None =>
           match history_ledgers !! (sel_where q).2 with
           | Some hash => (hash, nil)
           | None => (dest, Some sql_ErrNoRows)
           end
       end;
     NoRows err := bool_decide (err = Some sql_ErrNoRows) |}.

Lemma db_session_serves history_ledgers :
  serves (db_session history_ledgers nil) history_ledgers.
Proof.
  split; simpl.
  - intros seq hash dest ->. done.
  - intros seq dest ->. by exists (Some sql_ErrNoRows).
  - done.
Qed.

(** C3 (trusted hash lookup).  For a session answering from the
    [history_ledgers] table, [GetLedgerHash] returns [(hash, true, nil)]
    when the table has a hash for [seq] and [("", false, nil)], with no
    error, when it has no row for [seq]. *)
Theorem GetLedgerHash_found_iff_row s history_ledgers seq :
  serves s history_ledgers →
  (∀ hash, history_ledgers !! seq = Some hash →
     GetLedgerHash (NewOrbitRDBLedgerHashStore s) seq = (hash, true, nil)) ∧
  (history_ledgers !! seq = None →
     GetLedgerHash (NewOrbitRDBLedgerHashStore s) seq = ("", false, nil)).
Proof.
  intros Hs. unfold GetLedgerHash. simpl. fold (ledger_hash_query seq). split.
  - intros hash Hrow. rewrite (serves_row _ _ Hs _ _ "" Hrow).
    by rewrite (serves_nil _ _ Hs).
  - intros Hnone. destruct (serves_no_row _ _ Hs _ "" Hnone) as (err & -> & ->).
    done.
Qed.

Lemma GetLedgerHash_found_iff_row_witness :
  GetLedgerHash
    (NewOrbitRDBLedgerHashStore
       (db_session {[ 7%N := "ab12"; 8%N := "cd34" ]} nil)) 8
  = ("cd34", true, nil) ∧
  GetLedgerHash
    (NewOrbitRDBLedgerHashStore
       (db_session {[ 7%N := "ab12"; 8%N := "cd34" ]} nil)) 9
  = ("", false, nil).
Proof.
  split.
  - apply (proj1 (GetLedgerHash_found_iff_row _ _ 8%N
                    (db_session_serves {[ 7%N := "ab12"; 8%N := "cd34" ]}))).
    reflexivity.
  - apply (proj2 (GetLedgerHash_found_iff_row _ _ 9%N
                    (db_session_serves {[ 7%N := "ab12"; 8%N := "cd34" ]}))).
    reflexivity.
Defined.

(** C9 (query failure).  When the query fails with an error that is not
    the no-rows condition and the destination is left at its zero value,
    [GetLedgerHash] returns that error together with [found = true] and the
    empty hash.  More generally a non-nil error always comes with
    [found = true], whatever the table holds: the flag means something
    only when the error is nil. *)
Theorem GetLedgerHash_query_failure s seq e :
  Get s (ledger_hash_query seq) "" = ("", Some e) →
  NoRows s (Some e) = false →
  GetLedgerHash (NewOrbitRDBLedgerHashStore s) seq = ("", true, Some e) ∧
  (∀ s' seq', (GetLedgerHash (NewOrbitRDBLedgerHashStore s') seq').2 ≠ nil →
              (GetLedgerHash (NewOrbitRDBLedgerHashStore s') seq').1.2 = true).
Proof.
  intros Hget Hno. split.
  - unfold GetLedgerHash. simpl. fold (ledger_hash_query seq).
    by rewrite Hget, Hno.
  - intros s' seq'. unfold GetLedgerHash. simpl.
    destruct (Get s' _ _) as [hash err]. by destruct (NoRows s' err).
Qed.

(** A lost connection over an empty table: no hash is present, yet the
    lookup reports [found = true] next to the error. *)
Lemma GetLedgerHash_query_failure_witness :
  GetLedgerHash
    (NewOrbitRDBLedgerHashStore
       (db_session ∅ (Some (errors_New "connection refused")))) 5
  = ("", true, Some (errors_New "connection refused")).
Proof.
  apply (proj1 (GetLedgerHash_query_failure
                  (db_session ∅ (Some (errors_New "connection refused")))
                  5%N (errors_New "connection refused") eq_refl eq_refl)).
Defined.

(** *** The posix half of the gravity runner *)

(** An [*os.File], named by a number unique among the files ever opened. *)
Definition File : Type := nat.

(** A started child process: the files it inherited through
    [exec.Cmd.ExtraFiles].  Entry [i] is the child's descriptor [3 + i];
    descriptors 0 to 2 are the standard streams. *)
Record Child : Type := {
  inherited : list File;
}.

Definition child_fd (c : Child) (fd : nat) : option File :=
  if fd <? 3 then None else inherited c !! (fd - 3).

(** The operating system as the runner sees it: the files this process
    holds open and the children it has started. *)
Record OS : Type := {
  open_files : gset File;
  children : list Child;
}.

(** Modelled from the spec: the [cmdI] interface and its implementation
    over [exec.Cmd] are not among the sources.  Per the specification the
    runner passes the write end of its pipe to the child process as an
    inherited descriptor; [setExtraFiles] stores the files the command
    will pass on, as assigning [exec.Cmd.ExtraFiles] does.  The command
    line is fixed by the caller. *)
Record Cmd : Type := {
  Args : list string;
  ExtraFiles : list File;
}.

Definition setExtraFiles (cmd : Cmd) (files : list File) : Cmd :=
  {| Args := Args cmd; ExtraFiles := files |}.

(** The [pipe] struct (declared next to the runner, outside these
    sources): the end to read from and the end to close.  The zero value
    [pipe{}] has both fields nil. *)
Record pipe : Type := {
  Reader : option File;
  pipe_File : option File;
}.

Definition pipe_zero : pipe := {| Reader := None; pipe_File := None |}.

Section Runner.

(** When the system refuses a pipe (descriptor limit, ...) or the launch
    of a command (missing binary, ...): decided outside the runner. *)
Variable pipe_error : OS → error.
Variable start_error : Cmd → OS → error.

(** [os.Pipe()]: two new open files, the read end and the write end. *)
Definition os_Pipe (os : OS) : (File * File + err_value) * OS :=
  match pipe_error os with
  | Some e => (inr e, os)
  | None =>
      let r := fresh (open_files os) in
      let w := fresh ({[r]} ∪ open_files os) in
      (inl (r, w),
       {| open_files := {[r; w]} ∪ open_files os; children := children os |})
  end.

(** [f.Close()]; the runner ignores its result. *)
Definition file_Close (f : File) (os : OS) : OS :=
  {| open_files := open_files os ∖ {[f]}; children := children os |}.

(** [cmd.Start()]: on success a child exists that inherited the extra
    files the command carried at that moment. *)
Definition cmd_Start (cmd : Cmd) (os : OS) : error * OS :=
  match start_error cmd os with
  | Some e => (Some e, os)
  | None =>
      (nil, {| open_files := open_files os;
               children := children os ++ [{| inherited := ExtraFiles cmd |}] |})
  end.

Definition getPipeName : string := "fd:3".

Definition start (cmd : Cmd) (os : OS) : pipe * error * Cmd * OS :=
  match os_Pipe os with
  | (inr err, os1) =>
      (pipe_zero, errors_Wrap (Some err) "error making a pipe", cmd, os1)
  | (inl (readFile, writeFile), os1) =>
      let p := {| Reader := Some readFile; pipe_File := Some writeFile |} in
      let cmd1 := setExtraFiles cmd [writeFile] in
      let '(err, os2) := cmd_Start cmd1 os1 in
      if decide (err ≠ nil) then
        let os3 := file_Close writeFile os2 in
        let os4 := file_Close readFile os3 in
        (pipe_zero, errors_Wrap err "error starting gravity", cmd1, os4)
      else (p, nil, cmd1, os2)
  end.

Lemma os_Pipe_fresh os r w os1 :
  os_Pipe os = (inl (r, w), os1) →
  r ≠ w ∧ (r ∉ open_files os) ∧ (w ∉ open_files os) ∧
  open_files os1 = {[r; w]} ∪ open_files os ∧ children os1 = children os.
Proof.
  unfold os_Pipe. destruct (pipe_error os); [done|].
  intros [= <- <- <-]. simpl.
  pose proof (is_fresh (open_files os)) as Hr.
  pose proof (is_fresh ({[fresh (open_files os)]} ∪ open_files os)) as Hw.
  split; [|split; [done|split; [|done]]].
  - intros Heq. apply Hw. rewrite <- Heq. set_unfold. tauto.
  - intros Hin. apply Hw. set_unfold. tauto.
Qed.

(** C5 (descriptor passing).  When [start] succeeds, the [os.Pipe] call
    it made on the state it was entered in returned a read end [r] and a
    write end [w] (two distinct files, neither open before).  The
    command's extra files are exactly that write end, and one child was
    started, which inherited that single file as its descriptor 3, the
    descriptor [getPipeName] names, and nothing else.  The returned pipe
    reads from that read end, which the child did not get; both ends are
    still open in the runner. *)
Theorem start_passes_write_end cmd os p cmd' os' :
  start cmd os = (p, nil, cmd', os') →
  ∃ r w os1 child,
    os_Pipe os = (inl (r, w), os1) ∧
    r ≠ w ∧ (r ∉ open_files os) ∧ (w ∉ open_files os) ∧
    p = {| Reader := Some r; pipe_File := Some w |} ∧
    ExtraFiles cmd' = [w] ∧
    children os' = children os ++ [child] ∧
    inherited child = [w] ∧
    child_fd child 3 = Some w ∧
    (∀ fd, fd ≠ 3 → child_fd child fd = None) ∧
    (∀ fd, child_fd child fd ≠ Some r) ∧
    getPipeName = "fd:" +:+ pretty 3 ∧
    open_files os' = {[r; w]} ∪ open_files os.
Proof.
  unfold start.
  destruct (os_Pipe os) as [[[r w]|e] os1] eqn:Hpipe; [|done].
  pose proof Hpipe as Hfresh.
  apply os_Pipe_fresh in Hfresh as (Hne & Hr & Hw & Hopen & Hch).
  unfold cmd_Start. destruct (start_error _ os1) as [e|]; simpl; [done|].
  intros [= <- <- <-]. simpl.
  assert (∀ fd, fd ≠ 3 → child_fd {| inherited := [w] |} fd = None) as Hother.
  { intros fd Hfd. unfold child_fd. simpl.
    destruct (fd <? 3) eqn:Hlt; [done|].
    apply Nat.ltb_ge in Hlt.
    destruct (fd - 3) as [|n] eqn:Hn; [lia|done]. }
  exists r, w, os1, {| inherited := [w] |}.
  split; [done|]. split; [done|]. split; [done|]. split; [done|].
  split; [done|]. split; [done|]. split; [by rewrite Hch|].
  split; [done|]. split; [done|]. split; [done|].
  split; [|done].
  intros fd. destruct (decide (fd = 3)) as [->|Hfd].
  - cbv. congruence.
  - by rewrite Hother.
Qed.

(** C6 (failed launch).  When the pipe was made but [cmd.Start] fails,
    [start] returns the zero pipe with the launch error wrapped, and at
    that point neither end of the pipe is open any more: the runner holds
    exactly the files it held before the call, and no child was added. *)
Theorem start_failure_closes_pipe cmd os r w os1 e os2 :
  os_Pipe os = (inl (r, w), os1) →
  cmd_Start (setExtraFiles cmd [w]) os1 = (Some e, os2) →
  ∃ cmd' os',
    start cmd os
    = (pipe_zero, Some (errors_Wrapped "error starting gravity" e), cmd', os') ∧
    (r ∉ open_files os') ∧ (w ∉ open_files os') ∧
    open_files os' = open_files os ∧
    children os' = children os.
Proof.
  intros Hpipe Hstart. unfold start. rewrite Hpipe, Hstart. simpl.
  apply os_Pipe_fresh in Hpipe as (Hne & Hr & Hw & Hopen & Hch).
  unfold cmd_Start in Hstart.
  destruct (start_error _ os1); [|done]. injection Hstart as _ <-.
  eexists _, _. split; [reflexivity|]. simpl. rewrite Hopen.
  split; [|split; [|split; [|done]]].
  - set_unfold. intuition congruence.
  - set_unfold. intuition congruence.
  - set_unfold. intros x. split; [tauto|]. intros Hx.
    split; [split; [tauto|]|]; intros ->; contradiction.
Qed.

(** X4.  [start] has two outcomes only.  Either it returns a nil error
    with a pipe holding both ends, or it returns a wrapped error with the
    zero pipe, and then the runner's open files and its children are what
    they were before the call, whichever step failed; when it was
    [os.Pipe] that failed, the command was not touched (no extra files
    set, no launch attempted). *)
Theorem start_succeeds_or_leaves_nothing cmd os p err cmd' os' :
  start cmd os = (p, err, cmd', os') →
  (err = nil ∧ ∃ r w, p = {| Reader := Some r; pipe_File := Some w |}) ∨
  (p = pipe_zero ∧
   open_files os' = open_files os ∧ children os' = children os ∧
   ∃ cause,
     (err = Some (errors_Wrapped "error making a pipe" cause) ∧
      pipe_error os = Some cause ∧ cmd' = cmd ∧ os' = os) ∨
     (err = Some (errors_Wrapped "error starting gravity" cause) ∧
      pipe_error os = nil ∧ ∃ w, cmd' = setExtraFiles cmd [w])).
Proof.
  unfold start.
  destruct (os_Pipe os) as [[[r w]|e] os1] eqn:Hpipe.
  - pose proof Hpipe as Hfresh.
    apply os_Pipe_fresh in Hfresh as (Hne & Hr & Hw & Hopen & Hch).
    assert (pipe_error os = nil) as Hok.
    { unfold os_Pipe in Hpipe. by destruct (pipe_error os). }
    unfold cmd_Start. destruct (start_error _ os1) as [e|]; simpl.
    + intros [= <- <- <- <-]. right. simpl. rewrite Hopen.
      split; [done|]. split; [|split; [done|]].
      * set_unfold. intros x. split; [tauto|]. intros Hx.
        split; [split; [tauto|]|]; intros ->; contradiction.
      * exists e. right. eauto.
    + intros [= <- <- <- <-]. left. eauto.
  - unfold os_Pipe in Hpipe. destruct (pipe_error os) as [e'|] eqn:Herr; [|done].
    injection Hpipe as <- <-. simpl. intros [= <- <- <- <-]. right.
    split; [done|]. split; [done|]. split; [done|]. exists e'. by left.
Qed.

End Runner.

(** A runner process that already holds files 0, 1 and 2. *)
Definition os_example : OS :=
  {| open_files := {[0; 1; 2]}; children := [] |}.

Definition cmd_example : Cmd :=
  {| Args := ["gravity"; "run"; "--metadata-output-stream"; "fd:3"];
     ExtraFiles := [] |}.

Example start_example :
  let run := start (λ _, nil) (λ _ _, nil) cmd_example os_example in
  run.1.1 = ({| Reader := Some 3; pipe_File := Some 4 |}, nil) ∧
  ExtraFiles run.1.2 = [4] ∧
  children run.2 = [{| inherited := [4] |}] ∧
  open_files run.2 = {[0; 1; 2; 3; 4]}.
Proof. vm_compute. repeat split. Qed.

Example start_failure_example :
  let run := start (λ _, nil) (λ _ _, Some (errors_New "no such file"))
               cmd_example os_example in
  run.1.1 = (pipe_zero,
             Some (errors_Wrapped "error starting gravity"
                     (errors_New "no such file"))) ∧
  children run.2 = [] ∧
  open_files run.2 = {[0; 1; 2]}.
Proof. vm_compute. repeat split. Qed.

(** The runner of the example: [os.Pipe] gives files 3 (read end) and 4
    (write end); the child gets 4 as its descriptor 3 and the runner
    reads from 3. *)
Lemma start_passes_write_end_witness :
  ∃ r w os1 child,
    os_Pipe (λ _, nil) os_example = (inl (r, w), os1) ∧
    Reader (start (λ _, nil) (λ _ _, nil) cmd_example os_example).1.1.1
    = Some r ∧
    ExtraFiles (start (λ _, nil) (λ _ _, nil) cmd_example os_example).1.2 = [w] ∧
    child_fd child 3 = Some w.
Proof.
  destruct (start_passes_write_end (λ _, nil) (λ _ _, nil)
              cmd_example os_example
              (start (λ _, nil) (λ _ _, nil) cmd_example os_example).1.1.1
              (start (λ _, nil) (λ _ _, nil) cmd_example os_example).1.2
              (start (λ _, nil) (λ _ _, nil) cmd_example os_example).2
              eq_refl)
    as (r & w & os1 & child & Hpipe & _ & _ & _ & Hp & Hextra & _ & _ & Hfd & _).
  exists r, w, os1, child.
  split; [exact Hpipe|]. split; [by rewrite Hp|].
  split; [exact Hextra | exact Hfd].
Defined.

Lemma start_failure_closes_pipe_witness :
  ∃ cmd' os',
    start (λ _, nil) (λ _ _, Some (errors_New "no such file"))
      cmd_example os_example
    = (pipe_zero,
       Some (errors_Wrapped "error starting gravity" (errors_New "no such file")),
       cmd', os') ∧
    open_files os' = open_files os_example.
Proof.
  destruct (start_failure_closes_pipe (λ _, nil)
              (λ _ _, Some (errors_New "no such file"))
              cmd_example os_example 3 4
              (os_Pipe (λ _, nil) os_example).2
              (errors_New "no such file")
              (os_Pipe (λ _, nil) os_example).2 eq_refl eq_refl)
    as (cmd' & os' & Hrun & _ & _ & Hopen & _).
  exists cmd', os'. split; [exact Hrun | exact Hopen].
Defined.

Lemma start_succeeds_or_leaves_nothing_witness :
  (start (λ _, Some (errors_New "too many open files")) (λ _ _, nil)
     cmd_example os_example).1.1.2
  = Some (errors_Wrapped "error making a pipe"
            (errors_New "too many open files")) ∧
  (start (λ _, Some (errors_New "too many open files")) (λ _ _, nil)
     cmd_example os_example).2 = os_example.
Proof.
  destruct (start_succeeds_or_leaves_nothing
              (λ _, Some (errors_New "too many open files")) (λ _ _, nil)
              cmd_example os_example _ _ _ _ eq_refl)
    as [[Hnil _]|(_ & _ & _ & cause & [(Herr & Hcause & _ & Hos)|(_ & Hok & _)])].
  - discriminate Hnil.
  - injection Hcause as <-. split; [exact Herr | exact Hos].
  - discriminate Hok.
Defined.

End ledgerbackend.

(** ** network *)

Module network.

(** A Go string seen as the runes it decodes to; a rune is its code
    point. *)
Definition rune : Type := N.
Definition gostring : Type := list rune.

(** [unicode.IsSpace]: the Latin-1 spaces tab, line feed, vertical tab,
    form feed, carriage return, space, NEL and NBSP, and the other
    characters with the Unicode White_Space property. *)
Definition unicode_IsSpace (r : rune) : bool :=
  ((9 <=? r) && (r <=? 13) || (r =? 32) || (r =? 133) || (r =? 160)
   || (r =? 5760) || (8192 <=? r) && (r <=? 8202)
   || (r =? 8232) || (r =? 8233) || (r =? 8239) || (r =? 8287)
   || (r =? 12288))%N.

(** [strings.TrimLeftFunc], [strings.TrimRightFunc] and
    [strings.TrimSpace]. *)
Fixpoint strings_TrimLeftFunc (s : gostring) (f : rune → bool) : gostring :=
  match s with
  | [] => []
  | r :: s' => if f r then strings_TrimLeftFunc s' f else s
  end.

Definition strings_TrimRightFunc (s : gostring) (f : rune → bool) : gostring :=
  reverse (strings_TrimLeftFunc (reverse s) f).

Definition strings_TrimSpace (s : gostring) : gostring :=
  strings_TrimRightFunc (strings_TrimLeftFunc s unicode_IsSpace) unicode_IsSpace.

(** A passphrase that is empty or consists only of white space. *)
Definition blank (passphrase : gostring) : Prop :=
  Forall (λ r, unicode_IsSpace r = true) passphrase.

(** [xdr.EnvelopeType], an int32 enumeration: the three values the
    package switches on, and any other value. *)
Inductive EnvelopeType : Type :=
| EnvelopeTypeEnvelopeTypeTxV0
| EnvelopeTypeEnvelopeTypeTx
| EnvelopeTypeEnvelopeTypeTxFeeBump
| EnvelopeTypeOther (value : Z).

Inductive CryptoKeyType : Type :=
| CryptoKeyTypeKeyTypeEd25519
| CryptoKeyTypeOther (value : Z).

(** [[32]byte]. *)
Definition bytes32 : Type := list Byte.byte.
Definition zero32 : bytes32 := replicate 32 Byte.x00.

Section Hashing.

(** The [xdr] types are generated code outside these sources; the fields
    the package touches are spelled out, the rest stays abstract. *)
Context {MuxedAccount Uint256 Memo Operation TimeBounds Preconditions
         FeeBumpTransaction DecoratedSignature : Type}.

Record Transaction : Type := {
  SourceAccount : MuxedAccount;
  Fee : N;
  SeqNum : Z;
  Cond : Preconditions;
  Memo_ : Memo;
  Operations : list Operation;
}.

Record TransactionV0 : Type := {
  SourceAccountEd25519 : Uint256;
  V0_Fee : N;
  V0_SeqNum : Z;
  V0_TimeBounds : option TimeBounds;
  V0_Memo : Memo;
  V0_Operations : list Operation;
}.

Record TransactionV0Envelope : Type := {
  V0_Tx : TransactionV0;
  V0_Signatures : list DecoratedSignature;
}.

Record TransactionV1Envelope : Type := {
  V1_Tx : Transaction;
  V1_Signatures : list DecoratedSignature;
}.

Record FeeBumpTransactionEnvelope : Type := {
  FeeBump_Tx : FeeBumpTransaction;
  FeeBump_Signatures : list DecoratedSignature;
}.

(** The union as Go holds it: a discriminant and one pointer per arm. *)
Record TransactionEnvelope : Type := {
  Type_ : EnvelopeType;
  V0 : option TransactionV0Envelope;
  V1 : option TransactionV1Envelope;
  FeeBump : option FeeBumpTransactionEnvelope;
}.

Record TransactionSignaturePayloadTaggedTransaction : Type := {
  Tagged_Type : EnvelopeType;
  Tagged_Tx : option Transaction;
  Tagged_FeeBump : option FeeBumpTransaction;
}.

Record TransactionSignaturePayload : Type := {
  NetworkId : bytes32;
  TaggedTransaction : TransactionSignaturePayloadTaggedTransaction;
}.

(** [hash.Hash] (SHA-256), the bytes of a string, and the [xdr] helpers:
    the marshaller returns the bytes written and an error. *)
Variable hash_Hash : list Byte.byte → bytes32.
Variable bytes_of : gostring → list Byte.byte.
Variable xdr_Marshal : TransactionSignaturePayload → list Byte.byte * error.
Variable xdr_NewMuxedAccount : CryptoKeyType → Uint256 → MuxedAccount * error.
Variable xdr_NewPreconditionsWithTimeBounds : option TimeBounds → Preconditions.

Definition ID (passphrase : gostring) : bytes32 :=
  hash_Hash (bytes_of passphrase).

Definition hashTx (tx : TransactionSignaturePayloadTaggedTransaction)
    (passphrase : gostring) : bytes32 * error :=
  if decide (strings_TrimSpace passphrase = []) then
    (zero32, Some (errors_New "empty network passphrase"))
  else
    let payload := {| NetworkId := ID passphrase; TaggedTransaction := tx |} in
    let '(txBytes, err) := xdr_Marshal payload in
    if decide (err ≠ nil) then (zero32, errors_Wrap err "marshal tx failed")
    else (hash_Hash txBytes, nil).

Definition HashTransaction (tx : Transaction) (passphrase : gostring)
  : bytes32 * error :=
  let taggedTx := {| Tagged_Type := EnvelopeTypeEnvelopeTypeTx;
                     Tagged_Tx := Some tx; Tagged_FeeBump := None |} in
  hashTx taggedTx passphrase.

Definition HashFeeBumpTransaction (tx : FeeBumpTransaction)
    (passphrase : gostring) : bytes32 * error :=
  let taggedTx := {| Tagged_Type := EnvelopeTypeEnvelopeTypeTxFeeBump;
                     Tagged_Tx := None; Tagged_FeeBump := Some tx |} in
  hashTx taggedTx passphrase.

Definition HashTransactionV0 (tx : TransactionV0) (passphrase : gostring)
  : bytes32 * error :=
  let '(sa, err) :=
    xdr_NewMuxedAccount CryptoKeyTypeKeyTypeEd25519 (SourceAccountEd25519 tx) in
  if decide (err ≠ nil) then (zero32, err)
  else
    let v1Tx := {| SourceAccount := sa;
                   Fee := V0_Fee tx;
                   Memo_ := V0_Memo tx;
                   Operations := V0_Operations tx;
                   SeqNum := V0_SeqNum tx;
                   Cond := xdr_NewPreconditionsWithTimeBounds (V0_TimeBounds tx) |} in
    HashTransaction v1Tx passphrase.

(** [None] is the run-time panic of dereferencing a nil arm. *)
Definition HashTransactionInEnvelope (envelope : TransactionEnvelope)
    (passphrase : gostring) : option (bytes32 * error) :=
  match Type_ envelope with
  | EnvelopeTypeEnvelopeTypeTx =>
      v1 ← V1 envelope; Some (HashTransaction (V1_Tx v1) passphrase)
  | EnvelopeTypeEnvelopeTypeTxV0 =>
      v0 ← V0 envelope; Some (HashTransactionV0 (V0_Tx v0) passphrase)
  | EnvelopeTypeEnvelopeTypeTxFeeBump =>
      fb ← FeeBump envelope;
      Some (HashFeeBumpTransaction (FeeBump_Tx fb) passphrase)
  | EnvelopeTypeOther _ =>
      Some (zero32, Some (errors_New "invalid transaction type"))
  end.

(** An envelope that really carries a transaction: its discriminant is one
    of the three transaction types, the matching arm is set and, for a
    legacy transaction, the source key converts to a muxed account. *)
Definition holds_transaction (envelope : TransactionEnvelope) : Prop :=
  match Type_ envelope with
  | EnvelopeTypeEnvelopeTypeTx => is_Some (V1 envelope)
  | EnvelopeTypeEnvelopeTypeTxV0 =>
      ∃ v0, V0 envelope = Some v0 ∧
            (xdr_NewMuxedAccount CryptoKeyTypeKeyTypeEd25519
               (SourceAccountEd25519 (V0_Tx v0))).2 = nil
  | EnvelopeTypeEnvelopeTypeTxFeeBump => is_Some (FeeBump envelope)
  | EnvelopeTypeOther _ => False
  end.

Lemma strings_TrimLeftFunc_nil s f :
  strings_TrimLeftFunc s f = [] ↔ Forall (λ r, f r = true) s.
Proof.
  induction s as [|r s IH]; simpl.
  - split; [constructor|done].
  - destruct (f r) eqn:Hr.
    + rewrite IH. split; [by constructor|]. by inversion 1.
    + split; [done|]. inversion 1; congruence.
Qed.

Lemma strings_TrimLeftFunc_head s f r t :
  strings_TrimLeftFunc s f = r :: t → f r = false.
Proof.
  induction s as [|r' s IH]; simpl; [done|].
  destruct (f r') eqn:Hr; [done|]. by intros [= <- _].
Qed.

Lemma strings_TrimSpace_nil s : strings_TrimSpace s = [] ↔ blank s.
Proof.
  unfold strings_TrimSpace, strings_TrimRightFunc, blank.
  rewrite <- strings_TrimLeftFunc_nil. split.
  - intros H. apply (f_equal reverse) in H.
    rewrite reverse_involutive, reverse_nil in H.
    apply strings_TrimLeftFunc_nil in H. rewrite Forall_reverse in H.
    destruct (strings_TrimLeftFunc s unicode_IsSpace) as [|r t] eqn:Hs; [done|].
    apply strings_TrimLeftFunc_head in Hs.
    apply Forall_cons in H as [Hr _]. simpl in Hr. congruence.
  - by intros ->.
Qed.

(** C10 (blank passphrase).  For a passphrase that is empty or only white
    space, [hashTx] returns the zero hash and the "empty network
    passphrase" error, and so do [HashTransaction],
    [HashFeeBumpTransaction], [HashTransactionV0] (once the source key has
    converted) and [HashTransactionInEnvelope] on every envelope that
    carries a transaction; and whatever the envelope, a result of
    [HashTransactionInEnvelope] for such a passphrase is the zero hash
    with a non-nil error. *)
Theorem blank_passphrase_rejected passphrase :
  blank passphrase →
  let rejected := (zero32, Some (errors_New "empty network passphrase")) in
  (∀ tx, hashTx tx passphrase = rejected) ∧
  (∀ tx, HashTransaction tx passphrase = rejected) ∧
  (∀ tx, HashFeeBumpTransaction tx passphrase = rejected) ∧
  (∀ tx, (xdr_NewMuxedAccount CryptoKeyTypeKeyTypeEd25519
            (SourceAccountEd25519 tx)).2 = nil →
         HashTransactionV0 tx passphrase = rejected) ∧
  (∀ envelope, holds_transaction envelope →
               HashTransactionInEnvelope envelope passphrase = Some rejected) ∧
  (∀ envelope hash err,
     HashTransactionInEnvelope envelope passphrase = Some (hash, err) →
     hash = zero32 ∧ err ≠ nil).
Proof.
  intros Hblank%strings_TrimSpace_nil rejected.
  assert (Htx : ∀ tx, hashTx tx passphrase = rejected).
  { intros tx. unfold hashTx. by rewrite decide_True. }
  assert (Hv0 : ∀ tx,
            (HashTransactionV0 tx passphrase).1 = zero32 ∧
            (HashTransactionV0 tx passphrase).2 ≠ nil ∧
            ((xdr_NewMuxedAccount CryptoKeyTypeKeyTypeEd25519
                (SourceAccountEd25519 tx)).2 = nil →
             HashTransactionV0 tx passphrase = rejected)).
  { intros tx. unfold HashTransactionV0, HashTransaction.
    destruct (xdr_NewMuxedAccount _ _) as [sa err]. simpl.
    destruct (decide (err ≠ nil)) as [Hne|Heq]; simpl.
    - by repeat split.
    - rewrite Htx. by repeat split. }
  split; [done|]. split; [intros tx; apply Htx|].
  split; [intros tx; apply Htx|].
  split; [intros tx; apply Hv0|]. split.
  - intros envelope. unfold holds_transaction, HashTransactionInEnvelope.
    destruct (Type_ envelope); simpl.
    + intros (v0 & -> & Hmux). simpl. f_equal. by apply Hv0.
    + intros [v1 ->]. simpl. f_equal. apply Htx.
    + intros [fb ->]. simpl. f_equal. apply Htx.
    + done.
  - intros envelope hash err. unfold HashTransactionInEnvelope.
    destruct (Type_ envelope); simpl.
    + destruct (V0 envelope) as [v0|]; simpl; [|done].
      destruct (Hv0 (V0_Tx v0)) as (Hh & He & _).
      intros [= Heq]. rewrite Heq in Hh, He. done.
    + destruct (V1 envelope) as [v1|]; simpl; [|done].
      unfold HashTransaction. rewrite Htx. by intros [= <- <-].
    + destruct (FeeBump envelope) as [fb|]; simpl; [|done].
      unfold HashFeeBumpTransaction. rewrite Htx. by intros [= <- <-].
    + by intros [= <- <-].
Qed.

(** *** Further behaviour of the hashing functions *)

Lemma hashTx_cases tx passphrase :
  let payload := {| NetworkId := ID passphrase; TaggedTransaction := tx |} in
  (blank passphrase ∧
   hashTx tx passphrase
   = (zero32, Some (errors_New "empty network passphrase"))) ∨
  (¬ blank passphrase ∧ ∃ e,
     (xdr_Marshal payload).2 = Some e ∧
     hashTx tx passphrase
     = (zero32, Some (errors_Wrapped "marshal tx failed" e))) ∨
  (¬ blank passphrase ∧ (xdr_Marshal payload).2 = nil ∧
   hashTx tx passphrase = (hash_Hash (xdr_Marshal payload).1, nil)).
Proof.
  intros payload. unfold hashTx. fold payload.
  destruct (decide (strings_TrimSpace passphrase = [])) as [Hb|Hb].
  - left. by apply strings_TrimSpace_nil in Hb.
  - right. rewrite strings_TrimSpace_nil in Hb.
    destruct (xdr_Marshal payload) as [txBytes [e|]]; simpl.
    + left. eauto.
    + right. done.
Qed.

(** X5.  None of the five hashing functions ever returns a hash together
    with an error: whenever the error is non-nil the hash is the zero
    [[32]byte]. *)
Theorem hash_is_zero_on_error passphrase :
  (∀ tx, (hashTx tx passphrase).2 ≠ nil →
         (hashTx tx passphrase).1 = zero32) ∧
  (∀ tx, (HashTransaction tx passphrase).2 ≠ nil →
         (HashTransaction tx passphrase).1 = zero32) ∧
  (∀ tx, (HashFeeBumpTransaction tx passphrase).2 ≠ nil →
         (HashFeeBumpTransaction tx passphrase).1 = zero32) ∧
  (∀ tx, (HashTransactionV0 tx passphrase).2 ≠ nil →
         (HashTransactionV0 tx passphrase).1 = zero32) ∧
  (∀ envelope hash err,
     HashTransactionInEnvelope envelope passphrase = Some (hash, err) →
     err ≠ nil → hash = zero32).
Proof.
  assert (Htx : ∀ tx, (hashTx tx passphrase).2 ≠ nil →
                      (hashTx tx passphrase).1 = zero32).
  { intros tx.
    destruct (hashTx_cases tx passphrase)
      as [[_ ->]|[(_ & e & _ & ->)|(_ & _ & ->)]]; done. }
  assert (Hv0 : ∀ tx, (HashTransactionV0 tx passphrase).2 ≠ nil →
                      (HashTransactionV0 tx passphrase).1 = zero32).
  { intros tx. unfold HashTransactionV0, HashTransaction.
    destruct (xdr_NewMuxedAccount _ _) as [sa err].
    destruct (decide (err ≠ nil)); [done|]. apply Htx. }
  split; [done|]. split; [intros tx; apply Htx|].
  split; [intros tx; apply Htx|]. split; [done|].
  intros envelope hash err. unfold HashTransactionInEnvelope.
  destruct (Type_ envelope); simpl.
  - destruct (V0 envelope) as [v0|]; simpl; [|done].
    intros [= Heq] Herr. specialize (Hv0 (V0_Tx v0)).
    rewrite Heq in Hv0. by apply Hv0.
  - destruct (V1 envelope) as [v1|]; simpl; [|done].
    unfold HashTransaction. intros [= Heq] Herr.
    specialize (Htx {| Tagged_Type := EnvelopeTypeEnvelopeTypeTx;
                       Tagged_Tx := Some (V1_Tx v1);
                       Tagged_FeeBump := None |}).
    rewrite Heq in Htx. by apply Htx.
  - destruct (FeeBump envelope) as [fb|]; simpl; [|done].
    unfold HashFeeBumpTransaction. intros [= Heq] Herr.
    specialize (Htx {| Tagged_Type := EnvelopeTypeEnvelopeTypeTxFeeBump;
                       Tagged_Tx := None;
                       Tagged_FeeBump := Some (FeeBump_Tx fb) |}).
    rewrite Heq in Htx. by apply Htx.
  - by intros [= <- <-].
Qed.

(** X6.  [hashTx] succeeds exactly when the passphrase is not blank and
    the payload marshals; the payload's network id is the digest of the
    passphrase as given (white space around it is not trimmed away), and
    the result is the digest of the marshalled bytes.  A marshalling
    failure of a non-blank passphrase is returned wrapped as "marshal tx
    failed", with the zero hash. *)
Theorem hashTx_succeeds_iff tx passphrase :
  let payload := {| NetworkId := hash_Hash (bytes_of passphrase);
                    TaggedTransaction := tx |} in
  ((hashTx tx passphrase).2 = nil ↔
   ¬ blank passphrase ∧ (xdr_Marshal payload).2 = nil) ∧
  ((hashTx tx passphrase).2 = nil →
   (hashTx tx passphrase).1 = hash_Hash (xdr_Marshal payload).1) ∧
  (∀ e, ¬ blank passphrase → (xdr_Marshal payload).2 = Some e →
        hashTx tx passphrase
        = (zero32, Some (errors_Wrapped "marshal tx failed" e))).
Proof.
  intros payload.
  pose proof (hashTx_cases tx passphrase) as Hcases.
  cbv zeta in Hcases. unfold ID in Hcases. fold payload in Hcases.
  destruct Hcases as [[Hb ->]|[(Hb & e & He & ->)|(Hb & He & ->)]]; simpl.
  - split; [split; [done|tauto]|]. split; [done|]. tauto.
  - split; [split; [done|]|].
    + intros [_ Hnil]. by rewrite He in Hnil.
    + split; [done|]. intros e' _ He'. congruence.
  - split; [done|]. split; [done|]. intros e _ He'. by rewrite He in He'.
Qed.


(** X8.  [HashTransactionInEnvelope] panics (nil dereference) exactly on
    an envelope whose discriminant is a transaction type while the arm of
    that type is nil; arms of the other types are never looked at.  For a
    discriminant that is no transaction type it returns the zero hash and
    "invalid transaction type", whatever the passphrase. *)
Theorem HashTransactionInEnvelope_panics_iff envelope passphrase :
  (HashTransactionInEnvelope envelope passphrase = None ↔
   (Type_ envelope = EnvelopeTypeEnvelopeTypeTx ∧ V1 envelope = None) ∨
   (Type_ envelope = EnvelopeTypeEnvelopeTypeTxV0 ∧ V0 envelope = None) ∨
   (Type_ envelope = EnvelopeTypeEnvelopeTypeTxFeeBump ∧
    FeeBump envelope = None)) ∧
  (∀ value, Type_ envelope = EnvelopeTypeOther value →
     HashTransactionInEnvelope envelope passphrase
     = Some (zero32, Some (errors_New "invalid transaction type"))).
Proof.
  unfold HashTransactionInEnvelope. split.
  - destruct (Type_ envelope) eqn:Hty; simpl.
    + destruct (V0 envelope); simpl; split; try done; try tauto.
      intros [[? _]|[[_ ?]|[? _]]]; done.
    + destruct (V1 envelope); simpl; split; try done; try tauto.
      intros [[_ ?]|[[? _]|[? _]]]; done.
    + destruct (FeeBump envelope); simpl; split; try done; try tauto.
      intros [[? _]|[[? _]|[_ ?]]]; done.
    + split; [done|]. intros [[? _]|[[? _]|[? _]]]; done.
  - by intros value ->.
Qed.

End Hashing.

(** A toy instance: keys and accounts are numbers, the marshaller writes
    one byte, and the digest is a constant block. *)
Module Example.

Definition digest (b : list Byte.byte) : bytes32 := replicate 32 Byte.x2a.

Definition marshal
    (payload : @TransactionSignaturePayload N unit unit (option unit) unit)
  : list Byte.byte * error :=
  ([Byte.x01], nil).

Definition legacy_envelope
  : @TransactionEnvelope N N unit unit unit (option unit) unit unit :=
  {| Type_ := EnvelopeTypeEnvelopeTypeTxV0;
     V0 := Some {| V0_Tx := {| SourceAccountEd25519 := 5%N; V0_Fee := 100;
                               V0_SeqNum := 1; V0_TimeBounds := None;
                               V0_Memo := tt; V0_Operations := [tt] |};
                   V0_Signatures := [] |};
     V1 := None; FeeBump := None |}.

Definition hash_envelope
  : @TransactionEnvelope N N unit unit unit (option unit) unit unit →
    gostring → option (bytes32 * error) :=
  HashTransactionInEnvelope digest (λ _, []) marshal (λ _ key, (key, nil))
    (λ tb : option unit, tb).

Example unicode_IsSpace_samples :
  map unicode_IsSpace [32; 9; 10; 160; 8195; 12288; 65; 0; 8203]%N
  = [true; true; true; true; true; true; false; false; false].
Proof. reflexivity. Qed.

Example strings_TrimSpace_sample :
  strings_TrimSpace [32; 9; 84; 101; 32; 115; 116; 10; 32]%N
  = [84; 101; 32; 115; 116]%N.
Proof. reflexivity. Qed.

Example hash_envelope_named_network :
  hash_envelope legacy_envelope [84; 101; 115; 116]%N
  = Some (replicate 32 Byte.x2a, nil).
Proof. reflexivity. Qed.

Example hash_envelope_unknown_type :
  hash_envelope
    {| Type_ := EnvelopeTypeOther 1; V0 := None; V1 := None; FeeBump := None |}
    [32]%N
  = Some (zero32, Some (errors_New "invalid transaction type")).
Proof. reflexivity. Qed.

End Example.

Lemma blank_passphrase_rejected_witness :
  Example.hash_envelope Example.legacy_envelope [32; 9; 160]%N
  = Some (zero32, Some (errors_New "empty network passphrase")).
Proof.
  apply (blank_passphrase_rejected Example.digest (λ _, []) Example.marshal
           (λ _ key, (key, nil)) (λ tb : option unit, tb) [32; 9; 160]%N).
  - repeat constructor.
  - simpl. eexists. split; reflexivity.
Defined.

Definition tagged_example
  : @TransactionSignaturePayloadTaggedTransaction N unit unit (option unit) unit :=
  {| Tagged_Type := EnvelopeTypeEnvelopeTypeTxFeeBump;
     Tagged_Tx := None; Tagged_FeeBump := Some tt |}.

Lemma hash_is_zero_on_error_witness :
  (hashTx Example.digest (λ _, []) Example.marshal tagged_example [32; 32]%N).1
  = zero32.
Proof.
  refine (proj1 (hash_is_zero_on_error (Uint256:=N) (TimeBounds:=unit)
                   (DecoratedSignature:=unit) Example.digest (λ _, [])
                   Example.marshal (λ _ key, (key, nil))
                   (λ tb : option unit, tb) [32; 32]%N) tagged_example _).
  discriminate.
Defined.

Lemma hashTx_succeeds_iff_witness :
  (hashTx Example.digest (λ _, []) Example.marshal tagged_example
     [32; 84; 101; 115; 116]%N).1
  = Example.digest [Byte.x01].
Proof.
  exact (proj1 (proj2 (hashTx_succeeds_iff Example.digest (λ _, [])
                         Example.marshal tagged_example
                         [32; 84; 101; 115; 116]%N)) eq_refl).
Defined.


Lemma HashTransactionInEnvelope_panics_iff_witness :
  Example.hash_envelope
    {| Type_ := EnvelopeTypeEnvelopeTypeTx;
       V0 := V0 Example.legacy_envelope; V1 := None; FeeBump := None |}
    [84; 101; 115; 116]%N
  = None.
Proof.
  apply (HashTransactionInEnvelope_panics_iff Example.digest (λ _, [])
           Example.marshal (λ _ key, (key, nil)) (λ tb : option unit, tb)).
  left. split; reflexivity.
Defined.

End network.

(** ** processors: the claimable balances transaction processor *)

Module claimable_balances.

(** [xdr.LedgerEntryType]: the value the processor looks for, and any
    other. *)
Inductive LedgerEntryType : Type :=
| LedgerEntryTypeClaimableBalance
| LedgerEntryTypeOther (value : Z).

#[global] Instance LedgerEntryType_eq_dec : EqDecision LedgerEntryType.
Proof. solve_decision. Defined.

(** [claimableBalance]: a nil set and an empty set behave alike here, both
    are [∅]. *)
Record claimableBalance : Type := {
  internalID : Z;
  transactionSet : gset Z;
  operationSet : gset Z;
}.

Definition claimableBalance_zero : claimableBalance :=
  {| internalID := 0; transactionSet := ∅; operationSet := ∅ |}.

Definition addTransactionID (b : claimableBalance) (id : Z) : claimableBalance :=
  {| internalID := internalID b;
     transactionSet := {[id]} ∪ transactionSet b;
     operationSet := operationSet b |}.

Definition addOperationID (b : claimableBalance) (id : Z) : claimableBalance :=
  {| internalID := internalID b;
     transactionSet := transactionSet b;
     operationSet := {[id]} ∪ operationSet b |}.

Lemma addTransactionID_idemp b id :
  addTransactionID (addTransactionID b id) id = addTransactionID b id.
Proof.
  unfold addTransactionID. simpl. f_equal.
  apply set_eq. intros x. set_unfold. tauto.
Qed.

Lemma addOperationID_idemp b id :
  addOperationID (addOperationID b id) id = addOperationID b id.
Proof.
  unfold addOperationID. simpl. f_equal.
  apply set_eq. intros x. set_unfold. tauto.
Qed.

Lemma elem_of_foldl_add (ids : list string) (set : gset string) id :
  id ∈ foldl (λ set id, {[id]} ∪ set) set ids ↔ id ∈ ids ∨ id ∈ set.
Proof.
  revert set. induction ids as [|x ids IH]; intros set; simpl.
  - set_unfold. tauto.
  - rewrite IH. set_unfold. tauto.
Qed.

Section Processor.

Context {LedgerEntry ClaimableBalanceId LedgerTransaction Operation : Type}.

(** [ingest.Change], as the processor reads it. *)
Record Change : Type := {
  Type_ : LedgerEntryType;
  Pre : option LedgerEntry;
  Post : option LedgerEntry;
}.

(** What the processor takes from packages outside these sources:
    [entry.Data.MustClaimableBalance().BalanceId] and its zero value,
    [xdr.MarshalHex], the transaction's accessors, the total order id
    [toid.New(int32(sequence), int32(index), 0).ToInt64()] and the id of
    the operation at a given position of a transaction. *)
Variable BalanceId : LedgerEntry → ClaimableBalanceId.
Variable ClaimableBalanceId_zero : ClaimableBalanceId.
Variable xdr_MarshalHex : ClaimableBalanceId → string * error.
Variable Index : LedgerTransaction → N.
Variable GetChanges : LedgerTransaction → list Change * error.
Variable GetOperationChanges : LedgerTransaction → nat → list Change * error.
Variable Envelope_Operations : LedgerTransaction → list Operation.
Variable toid_New_ToInt64 : N → N → N → Z.
Variable operation_ID : N → LedgerTransaction → nat → Z.

(** Go leaves the order in which [range] visits a map unspecified.  The
    model visits the entries in the order [range_order] puts them in,
    which may be any rearrangement. *)
Variable range_order : ∀ A : Type, list A → list A.
Hypothesis range_order_perm : ∀ A (l : list A), range_order A l ≡ₚ l.

Fixpoint claimableBalancesForChanges_from (cbs : list string)
    (changes : list Change) : list string * error :=
  match changes with
  | [] => (cbs, nil)
  | c :: changes' =>
      if decide (Type_ c ≠ LedgerEntryTypeClaimableBalance) then
        claimableBalancesForChanges_from cbs changes'
      else if decide (Pre c = None ∧ Post c = None) then
        ([], Some (errors_New
           "Invalid io.Change: change.Pre == nil && change.Post == nil"))
      else
        let claimableBalanceID := ClaimableBalanceId_zero in
        let claimableBalanceID :=
          match Pre c with
          | Some pre => BalanceId pre
          | None => claimableBalanceID
          end in
        let claimableBalanceID :=
          match Post c with
          | Some post => BalanceId post
          | None => claimableBalanceID
          end in
        let '(id, err) := xdr_MarshalHex claimableBalanceID in
        if decide (err ≠ nil) then ([], err)
        else claimableBalancesForChanges_from (cbs ++ [id]) changes'
  end.

Definition claimableBalancesForChanges (changes : list Change)
  : list string * error :=
  claimableBalancesForChanges_from [] changes.

Definition dedupeClaimableBalances (ids : list string) : list string * error :=
  let set : gset string := foldl (λ set id, {[id]} ∪ set) ∅ ids in
  (range_order _ (elements set), nil).

Definition claimableBalancesForTransaction (sequence : N)
    (transaction : LedgerTransaction) : list string * error :=
  let '(changes, err) := GetChanges transaction in
  if decide (err ≠ nil) then ([], err)
  else
    let '(cbs, err) := claimableBalancesForChanges changes in
    if decide (err ≠ nil) then
      ([], errors_Wrap err ("reading transaction " +:+ pretty (Index transaction)
                            +:+ " claimable balances"))
    else dedupeClaimableBalances cbs.

(** The loop of [claimableBalancesForOperations] from position [opi] on. *)
Fixpoint claimableBalancesForOperations_from (transaction : LedgerTransaction)
    (sequence : N) (cbs : gmap Z (list string)) (opi : nat)
    (ops : list Operation) : gmap Z (list string) * error :=
  match ops with
  | [] => (cbs, nil)
  | op :: ops' =>
      let '(changes, err) := GetOperationChanges transaction opi in
      if decide (err ≠ nil) then (cbs, err)
      else
        let '(c, err) := claimableBalancesForChanges changes in
        if decide (err ≠ nil) then
          (cbs, errors_Wrap err
                  ("reading operation "
                   +:+ pretty (operation_ID sequence transaction opi)
                   +:+ " claimable balances"))
        else
          claimableBalancesForOperations_from transaction sequence
            (<[operation_ID sequence transaction opi := c]> cbs) (S opi) ops'
  end.

Definition claimableBalancesForOperations (transaction : LedgerTransaction)
    (sequence : N) : gmap Z (list string) * error :=
  claimableBalancesForOperations_from transaction sequence ∅ 0
    (Envelope_Operations transaction).

(** [entry := cbSet[cb]; entry.add...ID(id); cbSet[cb] = entry]: a missing
    key reads as the zero value. *)
Definition record_transaction (id : Z) (cbSet : gmap string claimableBalance)
    (cb : string) : gmap string claimableBalance :=
  <[cb := addTransactionID (default claimableBalance_zero (cbSet !! cb)) id]>
    cbSet.

Definition record_operation (id : Z) (cbSet : gmap string claimableBalance)
    (cb : string) : gmap string claimableBalance :=
  <[cb := addOperationID (default claimableBalance_zero (cbSet !! cb)) id]>
    cbSet.

Definition addTransactionClaimableBalances
    (cbSet : gmap string claimableBalance) (sequence : N)
    (transaction : LedgerTransaction)
  : error * gmap string claimableBalance :=
  let transactionID := toid_New_ToInt64 sequence (Index transaction) 0 in
  let '(transactionClaimableBalances, err) :=
    claimableBalancesForTransaction sequence transaction in
  if decide (err ≠ nil) then
    (errors_Wrap err "Could not determine claimable balances for transaction",
     cbSet)
  else
    (nil, foldl (record_transaction transactionID) cbSet
            transactionClaimableBalances).

Definition addOperationClaimableBalances
    (cbSet : gmap string claimableBalance) (sequence : N)
    (transaction : LedgerTransaction)
  : error * gmap string claimableBalance :=
  let '(claimableBalances, err) :=
    claimableBalancesForOperations transaction sequence in
  if decide (err ≠ nil) then
    (errors_Wrap err "could not determine operation claimable balances", cbSet)
  else
    (nil,
     foldl (λ cbSet '(operationID, cbs),
              foldl (record_operation operationID) cbSet cbs)
       cbSet (range_order _ (map_to_list claimableBalances))).

Record ClaimableBalancesTransactionProcessor : Type := {
  sequence : N;
  claimableBalanceSet : gmap string claimableBalance;
}.

Definition NewClaimableBalancesTransactionProcessor (sequence : N)
  : ClaimableBalancesTransactionProcessor :=
  {| sequence := sequence; claimableBalanceSet := ∅ |}.

Definition ProcessTransaction (p : ClaimableBalancesTransactionProcessor)
    (transaction : LedgerTransaction)
  : error * ClaimableBalancesTransactionProcessor :=
  let '(err, cbSet) :=
    addTransactionClaimableBalances (claimableBalanceSet p) (sequence p)
      transaction in
  let p := {| sequence := sequence p; claimableBalanceSet := cbSet |} in
  if decide (err ≠ nil) then (err, p)
  else
    let '(err, cbSet) :=
      addOperationClaimableBalances (claimableBalanceSet p) (sequence p)
        transaction in
    let p := {| sequence := sequence p; claimableBalanceSet := cbSet |} in
    if decide (err ≠ nil) then (err, p)
    else (nil, p).

(** *** Which balances a list of changes refers to *)

Definition is_claimable_balance (c : Change) : bool :=
  bool_decide (Type_ c = LedgerEntryTypeClaimableBalance).

(** The entry a change is identified by: the post-image when there is
    one, the pre-image otherwise. *)
Definition change_entry (c : Change) : option LedgerEntry :=
  match Post c with
  | Some post => Some post
  | None => Pre c
  end.

(** The hex id of a change's balance, when the change has an entry and
    the id marshals. *)
Definition change_id (c : Change) : option string :=
  match change_entry c with
  | Some entry =>
      match xdr_MarshalHex (BalanceId entry) with
      | (id, None) => Some id
      | (_, Some _) => None
      end
  | None => None
  end.

Lemma claimableBalancesForChanges_from_spec cbs changes :
  (∀ ids, claimableBalancesForChanges_from cbs changes = (ids, nil) ↔
          ∃ ids', ids = cbs ++ ids' ∧
                  Forall2 (λ c id, change_id c = Some id)
                    (filter (λ c, is_claimable_balance c = true) changes) ids') ∧
  ((claimableBalancesForChanges_from cbs changes).2 ≠ nil →
   (claimableBalancesForChanges_from cbs changes).1 = []).
Proof.
  revert cbs. induction changes as [|c changes IH]; intros cbs; simpl.
  - split; [|done]. intros ids. split.
    + intros [= <-]. exists []. by rewrite app_nil_r.
    + intros (ids' & -> & ->%Forall2_nil_inv_l). by rewrite app_nil_r.
  - unfold is_claimable_balance at 1.
    destruct (decide (Type_ c ≠ LedgerEntryTypeClaimableBalance)) as [Hty|Hty].
    { rewrite filter_cons_False; [apply IH|].
      rewrite bool_decide_eq_true. done. }
    apply dec_stable in Hty.
    rewrite filter_cons_True by (by rewrite bool_decide_eq_true).
    destruct (decide (Pre c = None ∧ Post c = None)) as [[Hpre Hpost]|Hpp].
    { split; [|done]. intros ids. split; [done|].
      intros (ids' & _ & H). inversion H as [|? id' ? ? Hid]; simplify_eq.
      unfold change_id, change_entry in Hid. by rewrite Hpost, Hpre in Hid. }
    assert (∃ entry,
              change_entry c = Some entry ∧
              match Post c with
              | Some post => BalanceId post
              | None => match Pre c with
                        | Some pre => BalanceId pre
                        | None => ClaimableBalanceId_zero
                        end
              end = BalanceId entry) as (entry & Hentry & ->).
    { unfold change_entry. destruct (Post c) as [post|]; [by exists post|].
      destruct (Pre c) as [pre|]; [by exists pre|]. by destruct Hpp. }
    destruct (xdr_MarshalHex (BalanceId entry)) as [id [e|]] eqn:Hhex; simpl.
    { split; [|done]. intros ids. split; [done|].
      intros (ids' & _ & H). inversion H as [|? id' ? ? Hid]; simplify_eq.
      unfold change_id in Hid. by rewrite Hentry, Hhex in Hid. }
    destruct (IH (cbs ++ [id])) as [IH1 IH2]. split; [|done].
    intros ids. rewrite IH1. split.
    + intros (ids' & -> & H). exists (id :: ids').
      split; [by rewrite <- app_assoc|]. constructor; [|done].
      unfold change_id. by rewrite Hentry, Hhex.
    + intros (ids' & -> & H). inversion H as [|? id' ? ids'' Hid]; simplify_eq.
      unfold change_id in Hid. rewrite Hentry, Hhex in Hid. simplify_eq.
      exists ids''. split; [by rewrite <- app_assoc|done].
Qed.

(** X9.  [claimableBalancesForChanges] succeeds with [ids] exactly when
    [ids] lists, in order, the hex id of every change of type claimable
    balance: changes of other types are skipped, a change with both images
    is identified by its post-image, and there is one id per such change
    (repeats included).  It fails as soon as such a change has neither
    image or an id that does not marshal, and then returns no ids. *)
Theorem claimableBalancesForChanges_spec changes :
  (∀ ids, claimableBalancesForChanges changes = (ids, nil) ↔
          Forall2 (λ c id, change_id c = Some id)
            (filter (λ c, is_claimable_balance c = true) changes) ids) ∧
  ((claimableBalancesForChanges changes).2 ≠ nil →
   (claimableBalancesForChanges changes).1 = []) ∧
  (∀ c, c ∈ changes → is_claimable_balance c = true →
        Pre c = None → Post c = None →
        (claimableBalancesForChanges changes).2 ≠ nil).
Proof.
  destruct (claimableBalancesForChanges_from_spec [] changes) as [H1 H2].
  split; [|split; [done|]].
  - intros ids. unfold claimableBalancesForChanges. rewrite H1. split.
    + by intros (ids' & -> & ?).
    + intros ?. by exists ids.
  - intros c Hin Hcb Hpre Hpost Hnil.
    destruct (claimableBalancesForChanges changes) as [ids err] eqn:Hrun.
    simpl in Hnil. subst err.
    apply H1 in Hrun as (ids' & _ & Hall).
    assert (c ∈ filter (λ c, is_claimable_balance c = true) changes) as Hc
      by (by apply list_elem_of_filter).
    destruct (proj1 (list_elem_of_lookup _ _) Hc) as [i Hi].
    destruct (Forall2_lookup_l _ _ _ _ _ Hall Hi) as (id & _ & Hid).
    unfold change_id, change_entry in Hid. by rewrite Hpost, Hpre in Hid.
Qed.


(** X10.  [dedupeClaimableBalances] never fails; its result holds each id
    of the input exactly once and nothing else, in no particular order. *)
Theorem dedupeClaimableBalances_spec ids :
  (dedupeClaimableBalances ids).2 = nil ∧
  NoDup (dedupeClaimableBalances ids).1 ∧
  (∀ id, id ∈ (dedupeClaimableBalances ids).1 ↔ id ∈ ids) ∧
  length (dedupeClaimableBalances ids).1 ≤ length ids.
Proof.
  unfold dedupeClaimableBalances. simpl.
  set (set := foldl _ _ ids).
  assert (Hmem : ∀ id, id ∈ range_order string (elements set) ↔ id ∈ ids).
  { intros id. rewrite range_order_perm, elem_of_elements.
    unfold set. rewrite elem_of_foldl_add.
    split; [intros [?|?%not_elem_of_empty]; done|by left]. }
  assert (Hnd : NoDup (range_order string (elements set))).
  { rewrite range_order_perm. apply NoDup_elements. }
  split; [done|]. split; [done|]. split; [done|].
  apply submseteq_length, NoDup_submseteq; [done|]. intros id. by rewrite Hmem.
Qed.

(** *** What [ProcessTransaction] does to the set of balances *)



Lemma foldl_record_transaction id cbs (m : gmap string claimableBalance) k :
  foldl (record_transaction id) m cbs !! k
  = if decide (k ∈ cbs)
    then Some (addTransactionID (default claimableBalance_zero (m !! k)) id)
    else m !! k.
Proof.
  revert m. induction cbs as [|x cbs IH]; intros m; cbn [foldl].
  - destruct (decide (k ∈ [])) as [H|H]; [by apply not_elem_of_nil in H|done].
  - rewrite IH. unfold record_transaction at 1 2.
    destruct (decide (x = k)) as [->|Hne].
    + rewrite lookup_insert_eq. simpl. rewrite addTransactionID_idemp.
      rewrite (decide_True (P:=k ∈ k :: cbs)) by apply list_elem_of_here.
      by destruct (decide (k ∈ cbs)).
    + rewrite lookup_insert_ne by done.
      destruct (decide (k ∈ cbs)) as [Hin|Hnin].
      * rewrite decide_True; [done|]. by apply list_elem_of_further.
      * rewrite decide_False; [done|].
        intros [?|?]%elem_of_cons; congruence.
Qed.

Lemma foldl_record_operation id cbs (m : gmap string claimableBalance) k :
  foldl (record_operation id) m cbs !! k
  = if decide (k ∈ cbs)
    then Some (addOperationID (default claimableBalance_zero (m !! k)) id)
    else m !! k.
Proof.
  revert m. induction cbs as [|x cbs IH]; intros m; cbn [foldl].
  - destruct (decide (k ∈ [])) as [H|H]; [by apply not_elem_of_nil in H|done].
  - rewrite IH. unfold record_operation at 1 2.
    destruct (decide (x = k)) as [->|Hne].
    + rewrite lookup_insert_eq. simpl. rewrite addOperationID_idemp.
      rewrite (decide_True (P:=k ∈ k :: cbs)) by apply list_elem_of_here.
      by destruct (decide (k ∈ cbs)).
    + rewrite lookup_insert_ne by done.
      destruct (decide (k ∈ cbs)) as [Hin|Hnin].
      * rewrite decide_True; [done|]. by apply list_elem_of_further.
      * rewrite decide_False; [done|].
        intros [?|?]%elem_of_cons; congruence.
Qed.

(** The nested loop of [addOperationClaimableBalances], entry by entry of
    the set: an entry exists afterwards iff it existed or some operation
    mentions its balance; its internal id and transactions are untouched
    and its operations grow by exactly the operations mentioning it. *)
Lemma foldl_record_operations (l : list (Z * list string))
    (m : gmap string claimableBalance) k :
  let m' := foldl (λ cbSet '(operationID, cbs),
                     foldl (record_operation operationID) cbSet cbs) m l in
  let cb := default claimableBalance_zero (m !! k) in
  (is_Some (m' !! k) ↔
   is_Some (m !! k) ∨ ∃ o cbs, (o, cbs) ∈ l ∧ k ∈ cbs) ∧
  (∀ cb', m' !! k = Some cb' →
     internalID cb' = internalID cb ∧
     transactionSet cb' = transactionSet cb ∧
     ∀ o, o ∈ operationSet cb' ↔
          o ∈ operationSet cb ∨ ∃ cbs, (o, cbs) ∈ l ∧ k ∈ cbs).
Proof.
  clear range_order_perm.
  revert m. induction l as [|[o1 cbs1] l IH]; intros m; simpl.
  - split.
    + split; [by left|]. intros [?|(o & cbs & Hin & _)]; [done|].
      by apply not_elem_of_nil in Hin.
    + intros cb' Hcb'. rewrite Hcb'. simpl. split; [done|]. split; [done|].
      intros o. split; [by left|]. intros [?|(cbs & Hin & _)]; [done|].
      by apply not_elem_of_nil in Hin.
  - specialize (IH (foldl (record_operation o1) m cbs1)).
    simpl in IH. rewrite (foldl_record_operation o1 cbs1 m k) in IH.
    destruct IH as [IH1 IH2]. split.
    + rewrite IH1. setoid_rewrite elem_of_cons.
      destruct (decide (k ∈ cbs1)) as [Hin|Hnin].
      * split; [|by eauto].
        intros _. right. exists o1, cbs1. by split; [left|].
      * split.
        -- intros [?|(o & cbs & Hl & Hk)]; [by left|].
           right. exists o, cbs. by split; [right|].
        -- intros [?|(o & cbs & [[= -> ->]|Hl] & Hk)];
             [by left|done|]. right. eauto.
    + intros cb' Hcb'. destruct (IH2 cb' Hcb') as (Hid & Htx & Hop).
      rewrite Hid, Htx. setoid_rewrite Hop. setoid_rewrite elem_of_cons.
      destruct (decide (k ∈ cbs1)) as [Hin|Hnin]; simpl.
      * split; [done|]. split; [done|]. intros o. set_unfold. split.
        -- intros [[->|?]|(cbs & Hl & Hk)]; [|by left|].
           ++ right. exists cbs1. by split; [left|].
           ++ right. exists cbs. by split; [right|].
        -- intros [?|(cbs & [[= -> ->]|Hl] & Hk)];
             [by left; right|by left; left|]. right. eauto.
      * split; [done|]. split; [done|]. intros o. split.
        -- intros [?|(cbs & Hl & Hk)]; [by left|].
           right. exists cbs. by split; [right|].
        -- intros [?|(cbs & [[= -> ->]|Hl] & Hk)]; [by left|done|].
           right. eauto.
Qed.

Lemma claimableBalancesForOperations_from_spec transaction seq m opi ops m' :
  claimableBalancesForOperations_from transaction seq m opi ops = (m', nil) →
  (∀ o, (∀ i, opi ≤ i < opi + length ops →
              operation_ID seq transaction i ≠ o) →
        m' !! o = m !! o) ∧
  (∀ i, opi ≤ i < opi + length ops →
     ∃ changes cbs,
       GetOperationChanges transaction i = (changes, nil) ∧
       claimableBalancesForChanges changes = (cbs, nil) ∧
       ((∀ j, i < j < opi + length ops →
              operation_ID seq transaction j ≠ operation_ID seq transaction i) →
        m' !! operation_ID seq transaction i = Some cbs)) ∧
  (∀ o cbs, m' !! o = Some cbs →
     m !! o = Some cbs ∨
     ∃ i changes,
       opi ≤ i < opi + length ops ∧ o = operation_ID seq transaction i ∧
       GetOperationChanges transaction i = (changes, nil) ∧
       claimableBalancesForChanges changes = (cbs, nil)).
Proof.
  revert m opi. induction ops as [|op ops IH]; intros m opi; simpl.
  - intros [= <-]. split; [done|]. split; [intros i; lia|]. by left.
  - destruct (GetOperationChanges transaction opi) as [changes err] eqn:Hget.
    destruct (decide (err ≠ nil)) as [|Herr%dec_stable]; [by intros [= _ ?]|].
    subst err.
    destruct (claimableBalancesForChanges changes) as [c err] eqn:Hcbs.
    destruct (decide (err ≠ nil)) as [Hne|Herr%dec_stable].
    { intros [= _ Hw]. by apply errors_Wrap_nil in Hw. }
    subst err. intros Hrun.
    destruct (IH _ _ Hrun) as (Hother & Hall & Hinv). split; [|split].
    + intros o Ho. rewrite Hother by (intros i Hi; apply Ho; lia).
      rewrite lookup_insert_ne; [done|]. apply Ho. lia.
    + intros i Hi. destruct (decide (i = opi)) as [->|Hne].
      * exists changes, c. split; [done|]. split; [done|].
        intros Hinj. rewrite Hother.
        -- by rewrite lookup_insert_eq.
        -- intros j Hj. apply Hinj. lia.
      * destruct (Hall i) as (chs & cbs & ? & ? & Hlook); [lia|].
        exists chs, cbs. split; [done|]. split; [done|].
        intros Hinj. apply Hlook. intros j Hj. apply Hinj. lia.
    + intros o cbs Ho. destruct (Hinv o cbs Ho) as [Hm|(i & chs & Hi & ? & ? & ?)].
      * destruct (decide (operation_ID seq transaction opi = o)) as [<-|Hne].
        -- rewrite lookup_insert_eq in Hm. injection Hm as <-.
           right. exists opi, changes. split; [lia|done].
        -- rewrite lookup_insert_ne in Hm by done. by left.
      * right. exists i, chs. split; [lia|done].
Qed.

Lemma claimableBalancesForTransaction_nil seq transaction tids :
  claimableBalancesForTransaction seq transaction = (tids, nil) →
  ∃ changes ids,
    GetChanges transaction = (changes, nil) ∧
    claimableBalancesForChanges changes = (ids, nil) ∧
    ∀ id, id ∈ tids ↔ id ∈ ids.
Proof.
  unfold claimableBalancesForTransaction.
  destruct (GetChanges transaction) as [changes err].
  destruct (decide (err ≠ nil)) as [|Herr%dec_stable]; [by intros [= _ ?]|].
  subst err.
  destruct (claimableBalancesForChanges changes) as [ids err] eqn:Hcbs.
  destruct (decide (err ≠ nil)) as [Hne|Herr%dec_stable].
  { intros [= _ Hw]. by apply errors_Wrap_nil in Hw. }
  subst err. intros Hdedupe.
  exists changes, ids. split; [done|]. split; [done|].
  pose proof (dedupeClaimableBalances_spec ids) as (_ & _ & Hmem & _).
  by rewrite Hdedupe in Hmem.
Qed.

(** X11.  After a successful [ProcessTransaction] every balance a change
    of the transaction refers to has an entry whose transaction set holds
    the transaction's id, and every balance a change of one of its
    operations refers to has an entry whose operation set holds that
    operation's id (provided no later operation of the transaction has the
    same id).  Several references to one balance end up in its single
    entry. *)
Theorem ProcessTransaction_records p transaction p' :
  ProcessTransaction p transaction = (nil, p') →
  sequence p' = sequence p ∧
  (∃ changes ids,
     GetChanges transaction = (changes, nil) ∧
     claimableBalancesForChanges changes = (ids, nil) ∧
     ∀ id, id ∈ ids →
       ∃ cb, claimableBalanceSet p' !! id = Some cb ∧
             toid_New_ToInt64 (sequence p) (Index transaction) 0
             ∈ transactionSet cb) ∧
  (∀ i, i < length (Envelope_Operations transaction) →
     (∀ j, i < j < length (Envelope_Operations transaction) →
           operation_ID (sequence p) transaction j
           ≠ operation_ID (sequence p) transaction i) →
     ∃ changes ids,
       GetOperationChanges transaction i = (changes, nil) ∧
       claimableBalancesForChanges changes = (ids, nil) ∧
       ∀ id, id ∈ ids →
         ∃ cb, claimableBalanceSet p' !! id = Some cb ∧
               operation_ID (sequence p) transaction i ∈ operationSet cb).
Proof.
  unfold ProcessTransaction, addTransactionClaimableBalances,
    addOperationClaimableBalances.
  destruct (claimableBalancesForTransaction (sequence p) transaction)
    as [tids err] eqn:Htx.
  destruct (decide (err ≠ nil)) as [Hne|Herr%dec_stable]; simpl.
  { rewrite decide_True; [|by rewrite errors_Wrap_nil].
    intros [= Hw _]. by apply errors_Wrap_nil in Hw. }
  subst err. simpl.
  destruct (claimableBalancesForOperations transaction (sequence p))
    as [opmap err] eqn:Hops.
  destruct (decide (err ≠ nil)) as [Hne|Herr%dec_stable]; simpl.
  { rewrite decide_True; [|by rewrite errors_Wrap_nil].
    intros [= Hw _]. by apply errors_Wrap_nil in Hw. }
  subst err. simpl. intros [= <-]. simpl. split; [done|].
  set (m1 := foldl (record_transaction _) (claimableBalanceSet p) tids).
  apply claimableBalancesForTransaction_nil in Htx
    as (changes & ids & Hget & Hids & Hmem).
  apply claimableBalancesForOperations_from_spec in Hops
    as (_ & Hall & _).
  split.
  - exists changes, ids. split; [done|]. split; [done|].
    intros id Hid%Hmem.
    pose proof (foldl_record_operations
                  (range_order _ (map_to_list opmap)) m1 id) as [Hsome Hcb].
    simpl in Hsome, Hcb.
    assert (m1 !! id
            = Some (addTransactionID
                      (default claimableBalance_zero
                         (claimableBalanceSet p !! id))
                      (toid_New_ToInt64 (sequence p) (Index transaction) 0)))
      as Hm1.
    { unfold m1. rewrite foldl_record_transaction. by rewrite decide_True. }
    destruct (proj2 Hsome) as [cb Hcb']; [left; by rewrite Hm1|].
    exists cb. split; [done|].
    destruct (Hcb cb Hcb') as (_ & -> & _). rewrite Hm1. simpl.
    set_unfold. by left.
  - intros i Hi Hinj.
    destruct (Hall i) as (chs & cbs & Hgeto & Hcbs & Hlook); [simpl; lia|].
    exists chs, cbs. split; [done|]. split; [done|].
    intros id Hid.
    pose proof (foldl_record_operations
                  (range_order _ (map_to_list opmap)) m1 id) as [Hsome Hcb].
    simpl in Hsome, Hcb.
    assert ((operation_ID (sequence p) transaction i, cbs)
            ∈ range_order _ (map_to_list opmap)) as Hin.
    { rewrite range_order_perm. apply elem_of_map_to_list, Hlook.
      intros j Hj. apply Hinj. simpl in Hj. lia. }
    destruct (proj2 Hsome) as [cb Hcb']; [right; eauto|].
    exists cb. split; [done|].
    destruct (Hcb cb Hcb') as (_ & _ & Hop). apply Hop. right. eauto.
Qed.

Lemma ProcessTransaction_shape p transaction err p' :
  ProcessTransaction p transaction = (err, p') →
  sequence p' = sequence p ∧
  ∃ tids l,
    claimableBalanceSet p'
    = foldl (λ cbSet '(operationID, cbs),
               foldl (record_operation operationID) cbSet cbs)
        (foldl (record_transaction
                  (toid_New_ToInt64 (sequence p) (Index transaction) 0))
           (claimableBalanceSet p) tids)
        l ∧
    (∀ o cbs, (o, cbs) ∈ l →
       ∃ i, i < length (Envelope_Operations transaction) ∧
            o = operation_ID (sequence p) transaction i) ∧
    ((claimableBalancesForTransaction (sequence p) transaction).2 ≠ nil →
     tids = [] ∧ l = [] ∧ err ≠ nil).
Proof.
  unfold ProcessTransaction, addTransactionClaimableBalances,
    addOperationClaimableBalances.
  destruct (claimableBalancesForTransaction (sequence p) transaction)
    as [tids err1] eqn:Htx.
  destruct (decide (err1 ≠ nil)) as [Hne|Herr%dec_stable]; simpl.
  { rewrite decide_True; [|by rewrite errors_Wrap_nil].
    intros [= <- <-]. split; [done|]. exists [], []. simpl.
    split; [done|]. split; [by intros o cbs ?%not_elem_of_nil|].
    intros _. by rewrite errors_Wrap_nil. }
  subst err1. simpl.
  destruct (claimableBalancesForOperations transaction (sequence p))
    as [opmap err2] eqn:Hops.
  destruct (decide (err2 ≠ nil)) as [Hne|Herr%dec_stable]; simpl.
  { rewrite decide_True; [|by rewrite errors_Wrap_nil].
    intros [= <- <-]. split; [done|]. exists tids, []. simpl.
    split; [done|]. split; [by intros o cbs ?%not_elem_of_nil|done]. }
  subst err2. simpl. intros [= <- <-]. split; [done|].
  exists tids, (range_order _ (map_to_list opmap)). simpl.
  split; [done|]. split; [|done].
  intros o cbs Hin. rewrite range_order_perm in Hin.
  apply elem_of_map_to_list in Hin.
  apply claimableBalancesForOperations_from_spec in Hops as (_ & _ & Hinv).
  destruct (Hinv o cbs Hin) as [Hempty|(i & chs & Hi & -> & _)].
  - by rewrite lookup_empty in Hempty.
  - exists i. split; [simpl in Hi; lia|done].
Qed.

(** X12.  Whatever it returns, [ProcessTransaction] only adds to the set
    of balances: no entry disappears, no internal id changes, no id leaves
    a transaction or operation set; the only transaction id that can
    appear is the transaction's own and the only operation ids those of
    its operations.  If the balances of the transaction itself cannot be
    determined the processor is returned unchanged, with an error. *)
Theorem ProcessTransaction_only_adds p transaction err p' :
  ProcessTransaction p transaction = (err, p') →
  sequence p' = sequence p ∧
  (∀ k, is_Some (claimableBalanceSet p !! k) →
        is_Some (claimableBalanceSet p' !! k)) ∧
  (∀ k cb', claimableBalanceSet p' !! k = Some cb' →
     let cb := default claimableBalance_zero (claimableBalanceSet p !! k) in
     internalID cb' = internalID cb ∧
     transactionSet cb ⊆ transactionSet cb' ∧
     transactionSet cb'
     ⊆ {[toid_New_ToInt64 (sequence p) (Index transaction) 0]}
       ∪ transactionSet cb ∧
     operationSet cb ⊆ operationSet cb' ∧
     ∀ o, o ∈ operationSet cb' →
          o ∈ operationSet cb ∨
          ∃ i, i < length (Envelope_Operations transaction) ∧
               o = operation_ID (sequence p) transaction i) ∧
  ((claimableBalancesForTransaction (sequence p) transaction).2 ≠ nil →
   p' = p ∧ err ≠ nil).
Proof.
  intros (Hseq & tids & l & Hset & Hl & Hfail)%ProcessTransaction_shape.
  split; [done|].
  set (txid := toid_New_ToInt64 (sequence p) (Index transaction) 0) in *.
  set (m1 := foldl (record_transaction txid) (claimableBalanceSet p) tids) in *.
  assert (Hm1 : ∀ k,
            m1 !! k = if decide (k ∈ tids)
                      then Some (addTransactionID
                                   (default claimableBalance_zero
                                      (claimableBalanceSet p !! k)) txid)
                      else claimableBalanceSet p !! k)
    by (intros k; apply foldl_record_transaction).
  split; [|split].
  - intros k Hk. rewrite Hset.
    apply (foldl_record_operations l m1 k). left. rewrite Hm1.
    by destruct (decide (k ∈ tids)).
  - intros k cb' Hcb'. rewrite Hset in Hcb'.
    destruct (foldl_record_operations l m1 k) as [_ Hcb].
    destruct (Hcb cb' Hcb') as (Hid & Htx & Hop). simpl.
    rewrite Hid, Htx, Hm1.
    destruct (decide (k ∈ tids)); simpl.
    + split; [done|]. split; [apply union_subseteq_r|]. split; [done|].
      split.
      * intros o Ho. apply Hop. left. by rewrite Hm1, decide_True.
      * intros o [Ho|(cbs & Hin & _)]%Hop.
        -- left. by rewrite Hm1, decide_True in Ho.
        -- right. eauto.
    + split; [done|]. split; [done|]. split; [apply union_subseteq_r|].
      split.
      * intros o Ho. apply Hop. left. by rewrite Hm1, decide_False.
      * intros o [Ho|(cbs & Hin & _)]%Hop.
        -- left. by rewrite Hm1, decide_False in Ho.
        -- right. eauto.
  - intros Hne. destruct (Hfail Hne) as (-> & -> & Herr). split; [|done].
    simpl in Hset. destruct p, p'. simpl in *. subst m1. by subst.
Qed.

(** *** Commit *)

(** [history.QHistoryClaimableBalances] is an interface implemented
    outside these sources; the store behind it is the world [Store], and
    each call on it (or on a batch insert builder it hands out) is
    logged. *)
Context {Store : Type}.

Variable Q_CreateHistoryClaimableBalances :
  list string → N → Store → (gmap string Z * error) * Store.
Variable Q_NewTransactionClaimableBalanceBatchInsertBuilder :
  N → Store → Store.
Variable transactionBatch_Add : Z → Z → Store → error * Store.
Variable transactionBatch_Exec : Store → error * Store.
Variable Q_NewOperationClaimableBalanceBatchInsertBuilder :
  N → Store → Store.
Variable operationBatch_Add : Z → Z → Store → error * Store.
Variable operationBatch_Exec : Store → error * Store.

Inductive StoreCall : Type :=
| CallCreate (ids : list string) (maxBatchSize : N)
| CallNewTransactionBatch (maxBatchSize : N)
| CallAddTransaction (transactionID internalID : Z)
| CallExecTransaction
| CallNewOperationBatch (maxBatchSize : N)
| CallAddOperation (operationID internalID : Z)
| CallExecOperation.

Definition CreateHistoryClaimableBalances (ids : list string)
    (maxBatchSize : N) : M Store StoreCall (gmap string Z * error) :=
  λ w, let '(r, w') := Q_CreateHistoryClaimableBalances ids maxBatchSize w in
       (r, w', [CallCreate ids maxBatchSize]).

Definition NewTransactionBatch (maxBatchSize : N) : M Store StoreCall unit :=
  λ w, (tt, Q_NewTransactionClaimableBalanceBatchInsertBuilder maxBatchSize w,
        [CallNewTransactionBatch maxBatchSize]).

Definition AddTransaction (transactionID internalID : Z)
  : M Store StoreCall error :=
  λ w, let '(err, w') := transactionBatch_Add transactionID internalID w in
       (err, w', [CallAddTransaction transactionID internalID]).

Definition ExecTransaction : M Store StoreCall error :=
  λ w, let '(err, w') := transactionBatch_Exec w in
       (err, w', [CallExecTransaction]).

Definition NewOperationBatch (maxBatchSize : N) : M Store StoreCall unit :=
  λ w, (tt, Q_NewOperationClaimableBalanceBatchInsertBuilder maxBatchSize w,
        [CallNewOperationBatch maxBatchSize]).

Definition AddOperation (operationID internalID : Z)
  : M Store StoreCall error :=
  λ w, let '(err, w') := operationBatch_Add operationID internalID w in
       (err, w', [CallAddOperation operationID internalID]).

Definition ExecOperation : M Store StoreCall error :=
  λ w, let '(err, w') := operationBatch_Exec w in
       (err, w', [CallExecOperation]).

(** A [for ... range] loop whose body returns from the function on the
    first error. *)
Fixpoint for_each {A} (body : A → M Store StoreCall error) (l : list A)
  : M Store StoreCall error :=
  match l with
  | [] => mret nil
  | x :: l' =>
      err ← body x;
      if decide (err ≠ nil) then mret err else for_each body l'
  end.

(** The second loop of [loadClaimableBalanceIDs]. *)
Fixpoint assign_internal_ids (toInternalID : gmap string Z)
    (claimableBalanceSet : gmap string claimableBalance) (ids : list string)
  : error * gmap string claimableBalance :=
  match ids with
  | [] => (nil, claimableBalanceSet)
  | id :: ids' =>
      match toInternalID !! id with
      | None =>
          (Some (errors_New
                   ("no internal id found for claimable balance " +:+ id)),
           claimableBalanceSet)
      | Some internalID =>
          let cb := default claimableBalance_zero (claimableBalanceSet !! id) in
          let cb := {| internalID := internalID;
                       transactionSet := transactionSet cb;
                       operationSet := operationSet cb |} in
          assign_internal_ids toInternalID (<[id := cb]> claimableBalanceSet)
            ids'
      end
  end.

Definition loadClaimableBalanceIDs
    (claimableBalanceSet : gmap string claimableBalance)
  : M Store StoreCall (error * gmap string claimableBalance) :=
  let ids := (range_order _ (map_to_list claimableBalanceSet)).*1 in
  '(toInternalID, err) ← CreateHistoryClaimableBalances ids
                           processors.maxBatchSize;
  if decide (err ≠ nil) then
    mret (errors_Wrap err "Could not create claimable balance ids",
          claimableBalanceSet)
  else mret (assign_internal_ids toInternalID claimableBalanceSet ids).

Definition insertDBTransactionClaimableBalances
    (claimableBalanceSet : gmap string claimableBalance)
  : M Store StoreCall error :=
  _ ← NewTransactionBatch processors.maxBatchSize;
  err ← for_each
          (λ '(_, entry),
             for_each (λ transactionID,
                         AddTransaction transactionID (internalID entry))
               (range_order _ (elements (transactionSet entry))))
          (range_order _ (map_to_list claimableBalanceSet));
  if decide (err ≠ nil) then
    mret (errors_Wrap err
            "could not insert transaction claimable balance in db")
  else
    err ← ExecTransaction;
    if decide (err ≠ nil) then
      mret (errors_Wrap err
              "could not flush transaction claimable balances to db")
    else mret nil.

Definition insertDBOperationsClaimableBalances
    (claimableBalanceSet : gmap string claimableBalance)
  : M Store StoreCall error :=
  _ ← NewOperationBatch processors.maxBatchSize;
  err ← for_each
          (λ '(_, entry),
             for_each (λ operationID,
                         AddOperation operationID (internalID entry))
               (range_order _ (elements (operationSet entry))))
          (range_order _ (map_to_list claimableBalanceSet));
  if decide (err ≠ nil) then
    mret (errors_Wrap err "could not insert operation claimable balance in db")
  else
    err ← ExecOperation;
    if decide (err ≠ nil) then
      mret (errors_Wrap err
              "could not flush operation claimable balances to db")
    else mret nil.

Definition Commit (p : ClaimableBalancesTransactionProcessor)
  : M Store StoreCall (error * ClaimableBalancesTransactionProcessor) :=
  if decide (0 < size (claimableBalanceSet p)) then
    '(err, cbSet) ← loadClaimableBalanceIDs (claimableBalanceSet p);
    let p := {| sequence := sequence p; claimableBalanceSet := cbSet |} in
    if decide (err ≠ nil) then mret (err, p)
    else
      err ← insertDBTransactionClaimableBalances (claimableBalanceSet p);
      if decide (err ≠ nil) then mret (err, p)
      else
        err ← insertDBOperationsClaimableBalances (claimableBalanceSet p);
        if decide (err ≠ nil) then mret (err, p)
        else mret (nil, p)
  else mret (nil, p).

Lemma for_each_log {A} (body : A → M Store StoreCall error)
    (calls : A → list StoreCall) l w w' log :
  (∀ x w w' log, body x w = (nil, w', log) → log = calls x) →
  for_each body l w = (nil, w', log) →
  log = l ≫= calls.
Proof.
  intros Hbody. revert w log. induction l as [|x l IH]; intros w log; simpl.
  - by intros [= _ <-].
  - cbv [mbind M_bind mret M_ret].
    destruct (body x w) as [[err w1] l1] eqn:Hx.
    destruct (decide (err ≠ nil)) as [Hne|Herr%dec_stable].
    { intros [= ? _ _]. done. }
    subst err. apply Hbody in Hx as ->.
    destruct (for_each body l w1) as [[err2 w2] l2] eqn:Hrest.
    intros [= -> <- <-]. by rewrite (IH _ _ Hrest).
Qed.

Lemma bind_perm_pointwise {A B} (f g : A → list B) (l k : list A) :
  (∀ x, f x ≡ₚ g x) → l ≡ₚ k → l ≫= f ≡ₚ k ≫= g.
Proof.
  intros Hfg Hlk. rewrite <- Hlk. clear Hlk k.
  induction l as [|x l IH]; [done|].
  rewrite !bind_cons. by rewrite Hfg, IH.
Qed.

Definition with_internalID (toInternalID : gmap string Z) (k : string)
    (cb : claimableBalance) : claimableBalance :=
  {| internalID := default 0%Z (toInternalID !! k);
     transactionSet := transactionSet cb;
     operationSet := operationSet cb |}.

Lemma assign_internal_ids_spec toInternalID cbSet ids :
  match assign_internal_ids toInternalID cbSet ids with
  | (None, cbSet') =>
      (∀ id, id ∈ ids → is_Some (toInternalID !! id)) ∧
      (∀ k, cbSet' !! k
            = if decide (k ∈ ids)
              then Some (with_internalID toInternalID k
                           (default claimableBalance_zero (cbSet !! k)))
              else cbSet !! k)
  | (Some e, _) =>
      ∃ id, id ∈ ids ∧ toInternalID !! id = None ∧
            e = errors_New
                  ("no internal id found for claimable balance " +:+ id)
  end.
Proof.
  revert cbSet. induction ids as [|id ids IH]; intros cbSet; cbn [assign_internal_ids].
  - split; [by intros id ?%not_elem_of_nil|]. intros k.
    destruct (decide (k ∈ [])) as [H|H]; [by apply not_elem_of_nil in H|done].
  - destruct (toInternalID !! id) as [iid|] eqn:Hid.
    + specialize (IH (<[id:={| internalID := iid;
                               transactionSet :=
                                 transactionSet
                                   (default claimableBalance_zero (cbSet !! id));
                               operationSet :=
                                 operationSet
                                   (default claimableBalance_zero (cbSet !! id))
                            |}]> cbSet)).
      destruct (assign_internal_ids _ _ ids) as [[e|] cbSet'].
      * destruct IH as (id' & ? & ? & ?). exists id'.
        split; [by apply list_elem_of_further|done].
      * destruct IH as [Hall Hlook]. split.
        -- intros id' [->|?]%elem_of_cons; [by rewrite Hid|by apply Hall].
        -- intros k. rewrite Hlook.
           destruct (decide (id = k)) as [->|Hne].
           ++ rewrite lookup_insert_eq. simpl.
              rewrite (decide_True (P:=k ∈ k :: ids)) by apply list_elem_of_here.
              unfold with_internalID. rewrite Hid. simpl.
              by destruct (decide (k ∈ ids)).
           ++ rewrite lookup_insert_ne by done.
              destruct (decide (k ∈ ids)) as [Hin|Hnin].
              ** rewrite decide_True; [done|]. by apply list_elem_of_further.
              ** rewrite decide_False; [done|].
                 intros [?|?]%elem_of_cons; congruence.
    + exists id. split; [apply list_elem_of_here|done].
Qed.

(** The join rows a set of balances stands for: one per balance and
    transaction (operation) of its set, each with the balance's internal
    id. *)
Definition transaction_rows (cbSet : gmap string claimableBalance)
  : list (Z * Z) :=
  map_to_list cbSet ≫= λ '(_, cb),
    (λ t, (t, internalID cb)) <$> elements (transactionSet cb).

Definition operation_rows (cbSet : gmap string claimableBalance)
  : list (Z * Z) :=
  map_to_list cbSet ≫= λ '(_, cb),
    (λ o, (o, internalID cb)) <$> elements (operationSet cb).

Definition add_transaction_call (row : Z * Z) : StoreCall :=
  CallAddTransaction row.1 row.2.

Definition add_operation_call (row : Z * Z) : StoreCall :=
  CallAddOperation row.1 row.2.

Lemma loop_log_rows {A} (call : Z → Z → StoreCall) (ids : A → list Z)
    (iid : A → Z) (l : list A) :
  l ≫= (λ x, ids x ≫= λ t, [call t (iid x)])
  = (λ row : Z * Z, call row.1 row.2)
    <$> (l ≫= λ x, (λ t, (t, iid x)) <$> ids x).
Proof.
  induction l as [|x l IH]; [done|].
  rewrite !bind_cons, fmap_app, IH. f_equal.
  induction (ids x) as [|t ts IHt]; [done|].
  rewrite bind_cons, !fmap_cons, IHt. done.
Qed.

Lemma keys_in_range_order (cbSet : gmap string claimableBalance) k :
  k ∈ (range_order _ (map_to_list cbSet)).*1 ↔ is_Some (cbSet !! k).
Proof.
  rewrite range_order_perm, list_elem_of_fmap. split.
  - intros ([k' cb] & -> & Hin%elem_of_map_to_list). eauto.
  - intros [cb Hcb]. exists (k, cb). split; [done|].
    by apply elem_of_map_to_list.
Qed.

Lemma insertDBTransactionClaimableBalances_nil cbSet w w' log :
  insertDBTransactionClaimableBalances cbSet w = (nil, w', log) →
  ∃ rows,
    log = CallNewTransactionBatch processors.maxBatchSize
          :: (add_transaction_call <$> rows) ++ [CallExecTransaction] ∧
    rows ≡ₚ transaction_rows cbSet.
Proof.
  unfold insertDBTransactionClaimableBalances.
  cbv [mbind M_bind mret M_ret NewTransactionBatch ExecTransaction].
  destruct (for_each _ _ _) as [[err w1] l1] eqn:Hloop.
  destruct (decide (err ≠ nil)) as [Hne|Herr%dec_stable].
  { intros [= Hw _ _]. by apply errors_Wrap_nil in Hw. }
  subst err.
  destruct (transactionBatch_Exec w1) as [err w2].
  destruct (decide (err ≠ nil)) as [Hne|Herr%dec_stable].
  { intros [= Hw _ _]. by apply errors_Wrap_nil in Hw. }
  subst err. intros [= <- <-].
  apply (for_each_log _
           (λ '(_, entry),
              range_order _ (elements (transactionSet entry))
              ≫= λ t, [CallAddTransaction t (internalID entry)])) in Hloop.
  - exists (range_order _ (map_to_list cbSet)
            ≫= λ x, (λ t, (t, internalID x.2))
                    <$> range_order _ (elements (transactionSet x.2))).
    split.
    + rewrite Hloop. simpl. f_equal. f_equal.
      unfold add_transaction_call.
      rewrite <- (loop_log_rows CallAddTransaction
                    (λ x, range_order _ (elements (transactionSet x.2)))
                    (λ x, internalID x.2)).
      apply list_bind_ext; [|done]. by intros [k cb].
    + unfold transaction_rows. apply bind_perm_pointwise.
      * intros [k cb]. simpl. by rewrite range_order_perm.
      * apply range_order_perm.
  - intros [k entry] v v' l Hinner.
    apply (for_each_log _ (λ t, [CallAddTransaction t (internalID entry)]))
      in Hinner; [done|].
    intros t u u' lg. unfold AddTransaction.
    destruct (transactionBatch_Add _ _ _). by intros [= _ _ <-].
Qed.

Lemma insertDBOperationsClaimableBalances_nil cbSet w w' log :
  insertDBOperationsClaimableBalances cbSet w = (nil, w', log) →
  ∃ rows,
    log = CallNewOperationBatch processors.maxBatchSize
          :: (add_operation_call <$> rows) ++ [CallExecOperation] ∧
    rows ≡ₚ operation_rows cbSet.
Proof.
  unfold insertDBOperationsClaimableBalances.
  cbv [mbind M_bind mret M_ret NewOperationBatch ExecOperation].
  destruct (for_each _ _ _) as [[err w1] l1] eqn:Hloop.
  destruct (decide (err ≠ nil)) as [Hne|Herr%dec_stable].
  { intros [= Hw _ _]. by apply errors_Wrap_nil in Hw. }
  subst err.
  destruct (operationBatch_Exec w1) as [err w2].
  destruct (decide (err ≠ nil)) as [Hne|Herr%dec_stable].
  { intros [= Hw _ _]. by apply errors_Wrap_nil in Hw. }
  subst err. intros [= <- <-].
  apply (for_each_log _
           (λ '(_, entry),
              range_order _ (elements (operationSet entry))
              ≫= λ o, [CallAddOperation o (internalID entry)])) in Hloop.
  - exists (range_order _ (map_to_list cbSet)
            ≫= λ x, (λ t, (t, internalID x.2))
                    <$> range_order _ (elements (operationSet x.2))).
    split.
    + rewrite Hloop. simpl. f_equal. f_equal.
      unfold add_operation_call.
      rewrite <- (loop_log_rows CallAddOperation
                    (λ x, range_order _ (elements (operationSet x.2)))
                    (λ x, internalID x.2)).
      apply list_bind_ext; [|done]. by intros [k cb].
    + unfold operation_rows. apply bind_perm_pointwise.
      * intros [k cb]. simpl. by rewrite range_order_perm.
      * apply range_order_perm.
  - intros [k entry] v v' l Hinner.
    apply (for_each_log _ (λ o, [CallAddOperation o (internalID entry)]))
      in Hinner; [done|].
    intros o u u' lg. unfold AddOperation.
    destruct (operationBatch_Add _ _ _). by intros [= _ _ <-].
Qed.

(** X13.  A successful [Commit] of a non-empty set talks to the store in
    this order: one [CreateHistoryClaimableBalances] call listing every
    balance of the set exactly once, with [maxBatchSize]; a transaction
    batch to which one row is added per balance and transaction of its
    set and which is then flushed; an operation batch, likewise, per
    balance and operation.  Every row carries the internal id the store
    returned for its balance, which is also what the entries of the set
    hold afterwards; nothing else about the set changes. *)
Theorem Commit_links_each_balance_once p w p' w' log :
  Commit p w = ((nil, p'), w', log) →
  claimableBalanceSet p ≠ ∅ →
  ∃ ids toInternalID txrows oprows,
    log = CallCreate ids 100000
          :: CallNewTransactionBatch 100000
          :: (add_transaction_call <$> txrows)
          ++ CallExecTransaction
          :: CallNewOperationBatch 100000
          :: (add_operation_call <$> oprows) ++ [CallExecOperation] ∧
    ids ≡ₚ (map_to_list (claimableBalanceSet p)).*1 ∧
    (Q_CreateHistoryClaimableBalances ids 100000 w).1 = (toInternalID, nil) ∧
    (∀ k, is_Some (claimableBalanceSet p !! k) →
          is_Some (toInternalID !! k)) ∧
    (∀ k, claimableBalanceSet p' !! k
          = with_internalID toInternalID k <$> claimableBalanceSet p !! k) ∧
    sequence p' = sequence p ∧
    txrows ≡ₚ transaction_rows (claimableBalanceSet p') ∧
    oprows ≡ₚ operation_rows (claimableBalanceSet p').
Proof.
  unfold Commit. intros Hrun Hne.
  rewrite decide_True in Hrun
    by (by apply Nat.neq_0_lt_0; intros ?%map_size_empty_inv).
  revert Hrun. unfold loadClaimableBalanceIDs.
  cbv [mbind M_bind mret M_ret CreateHistoryClaimableBalances].
  set (ids := (range_order _ (map_to_list (claimableBalanceSet p))).*1).
  change processors.maxBatchSize with 100000%N.
  destruct (Q_CreateHistoryClaimableBalances ids 100000 w)
    as [[toInternalID err] w1] eqn:Hcreate.
  destruct (decide (err ≠ nil)) as [Hne1|Herr%dec_stable]; simpl.
  { rewrite decide_True by (by rewrite errors_Wrap_nil).
    intros [= Hw _ _ _]. by apply errors_Wrap_nil in Hw. }
  subst err.
  pose proof (assign_internal_ids_spec toInternalID
                (claimableBalanceSet p) ids) as Hassign.
  destruct (assign_internal_ids toInternalID (claimableBalanceSet p) ids)
    as [[e|] cbSet']; simpl; [by intros [= ? _ _ _]|].
  destruct Hassign as [Hall Hlook].
  destruct (insertDBTransactionClaimableBalances cbSet' w1)
    as [[err2 w2] l2] eqn:Htx.
  destruct (decide (err2 ≠ nil)) as [Hne2|Herr%dec_stable]; simpl.
  { by intros [= ? _ _ _]. }
  subst err2.
  destruct (insertDBOperationsClaimableBalances cbSet' w2)
    as [[err3 w3] l3] eqn:Hop.
  destruct (decide (err3 ≠ nil)) as [Hne3|Herr%dec_stable]; simpl.
  { by intros [= ? _ _ _]. }
  subst err3. intros [= <- <- <-]. simpl.
  apply insertDBTransactionClaimableBalances_nil in Htx
    as (txrows & -> & Htxrows).
  apply insertDBOperationsClaimableBalances_nil in Hop
    as (oprows & -> & Hoprows).
  exists ids, toInternalID, txrows, oprows.
  split.
  { change processors.maxBatchSize with 100000%N.
    rewrite app_nil_r. simpl. by rewrite <- app_assoc. }
  split; [unfold ids; by rewrite range_order_perm|].
  split; [by rewrite Hcreate|]. split.
  { intros k Hk. apply Hall. by apply keys_in_range_order. }
  split; [|by repeat split].
  intros k. rewrite Hlook.
  destruct (decide (k ∈ ids)) as [Hin|Hnin].
  - apply keys_in_range_order in Hin as [cb ->]. done.
  - destruct (claimableBalanceSet p !! k) as [cb|] eqn:Hk; [|done].
    exfalso. apply Hnin, keys_in_range_order. by rewrite Hk.
Qed.

(** X14.  [Commit] of a processor that saw no claimable balance makes no
    call on the store and returns nil.  When the store's answer lacks the
    internal id of some balance of the set, [Commit] fails with "no
    internal id found for claimable balance <id>" for such a balance,
    having made the [CreateHistoryClaimableBalances] call only: no row is
    added to any batch. *)
Theorem Commit_edge_cases p w :
  (claimableBalanceSet p = ∅ → Commit p w = ((nil, p), w, [])) ∧
  (∀ toInternalID w1,
     claimableBalanceSet p ≠ ∅ →
     Q_CreateHistoryClaimableBalances
       (range_order _ (map_to_list (claimableBalanceSet p))).*1 100000 w
     = ((toInternalID, nil), w1) →
     (∃ k, is_Some (claimableBalanceSet p !! k) ∧ toInternalID !! k = None) →
     ∃ id p',
       is_Some (claimableBalanceSet p !! id) ∧ toInternalID !! id = None ∧
       Commit p w
       = ((Some (errors_New
                   ("no internal id found for claimable balance " +:+ id)),
           p'), w1,
          [CallCreate (range_order _ (map_to_list (claimableBalanceSet p))).*1
             100000])).
Proof.
  split.
  - intros Hempty. unfold Commit. rewrite Hempty, map_size_empty.
    by rewrite decide_False by lia.
  - intros toInternalID w1 Hne Hcreate (k & Hk & Hmiss). unfold Commit.
    rewrite decide_True
      by (by apply Nat.neq_0_lt_0; intros ?%map_size_empty_inv).
    unfold loadClaimableBalanceIDs.
    cbv [mbind M_bind mret M_ret CreateHistoryClaimableBalances].
    change processors.maxBatchSize with 100000%N. rewrite Hcreate. simpl.
    pose proof (assign_internal_ids_spec toInternalID (claimableBalanceSet p)
                  (range_order _ (map_to_list (claimableBalanceSet p))).*1)
      as Hassign.
    destruct (assign_internal_ids _ _ _) as [[e|] cbSet']; simpl.
    + destruct Hassign as (id & Hin%keys_in_range_order & Hid & ->).
      eexists id, _. split; [done|]. split; [done|]. reflexivity.
    + destruct Hassign as [Hall _]. exfalso.
      destruct (Hall k) as [iid Hiid]; [by apply keys_in_range_order|].
      congruence.
Qed.

End Processor.

(** A ledger in which entries are named by the hex id of their balance.
    Total order ids pack ledger, transaction and operation as [toid]
    does; operations are numbered from 1; the store hands out internal
    ids from 500 upwards, in the order asked. *)
Module Example.

Record transaction : Type := {
  tx_index : N;
  tx_changes : list (@Change string);
  tx_operations : list (list (@Change string));
}.

Definition balance_change (pre post : option string) : @Change string :=
  {| Type_ := LedgerEntryTypeClaimableBalance; Pre := pre; Post := post |}.

Definition account_change (pre post : option string) : @Change string :=
  {| Type_ := LedgerEntryTypeOther 0; Pre := pre; Post := post |}.

Definition toid (ledger index operation : N) : Z :=
  Z.of_N (ledger * 2 ^ 32 + index * 2 ^ 12 + operation).

Definition hex (id : string) : string * error := (id, nil).

Definition in_order (A : Type) (l : list A) : list A := l.

Lemma in_order_perm A (l : list A) : in_order A l ≡ₚ l.
Proof. done. Qed.

Definition changes_of (changes : list (@Change string)) : list string * error :=
  claimableBalancesForChanges id "" hex changes.

Definition process (p : ClaimableBalancesTransactionProcessor)
    (t : transaction) : error * ClaimableBalancesTransactionProcessor :=
  ProcessTransaction id "" hex tx_index (λ t, (tx_changes t, nil))
    (λ t i, (default [] (tx_operations t !! i), nil))
    tx_operations toid (λ seq t i, toid seq (tx_index t) (N.of_nat (S i)))
    in_order p t.

Definition create (answer : list string → gmap string Z)
    (ids : list string) (maxBatchSize : N) (w : unit)
  : (gmap string Z * error) * unit :=
  ((answer ids, nil), w).

Definition number_from_500 (ids : list string) : gmap string Z :=
  list_to_map (imap (λ i id, (id, (500 + Z.of_nat i)%Z)) ids).

Definition commit (answer : list string → gmap string Z)
    (p : ClaimableBalancesTransactionProcessor) :=
  Commit in_order (create answer) (λ _ w, w) (λ _ _ w, (nil, w))
    (λ w, (nil, w)) (λ _ w, w) (λ _ _ w, (nil, w)) (λ w, (nil, w)) p tt.

(** Transaction 1 of ledger 7: its first operation creates balance "b1",
    its second claims it. *)
Definition create_and_claim : transaction :=
  {| tx_index := 1;
     tx_changes := [account_change (Some "a") (Some "a");
                    balance_change None (Some "b1");
                    balance_change (Some "b1") None];
     tx_operations := [[balance_change None (Some "b1")];
                       [account_change (Some "a") (Some "a");
                        balance_change (Some "b1") None]] |}.

Example process_create_and_claim :
  process (NewClaimableBalancesTransactionProcessor 7) create_and_claim
  = (nil,
     {| sequence := 7;
        claimableBalanceSet :=
          {[ "b1" := {| internalID := 0;
                        transactionSet := {[ toid 7 1 0 ]};
                        operationSet := {[ toid 7 1 1; toid 7 1 2 ]} |} ]} |}).
Proof. vm_compute. reflexivity. Qed.

Example commit_create_and_claim :
  (commit number_from_500
     (process (NewClaimableBalancesTransactionProcessor 7)
        create_and_claim).2).2
  = [CallCreate ["b1"] 100000;
     CallNewTransactionBatch 100000;
     CallAddTransaction (toid 7 1 0) 500;
     CallExecTransaction;
     CallNewOperationBatch 100000;
     CallAddOperation (toid 7 1 1) 500;
     CallAddOperation (toid 7 1 2) 500;
     CallExecOperation].
Proof. vm_compute. reflexivity. Qed.

End Example.

Lemma claimableBalancesForChanges_spec_witness :
  (Example.changes_of [Example.balance_change None None]).2 ≠ nil.
Proof.
  apply (proj2 (proj2 (claimableBalancesForChanges_spec id "" Example.hex
                         [Example.balance_change None None]))
           (Example.balance_change None None)).
  - apply list_elem_of_here.
  - reflexivity.
  - reflexivity.
  - reflexivity.
Defined.

Lemma dedupeClaimableBalances_spec_witness :
  NoDup (dedupeClaimableBalances Example.in_order ["b1"; "b2"; "b1"]).1.
Proof.
  exact (proj1 (proj2 (dedupeClaimableBalances_spec Example.in_order
                         Example.in_order_perm ["b1"; "b2"; "b1"]))).
Defined.

Lemma ProcessTransaction_records_witness :
  sequence (Example.process (NewClaimableBalancesTransactionProcessor 7)
              Example.create_and_claim).2 = 7%N.
Proof.
  exact (proj1 (ProcessTransaction_records id "" Example.hex Example.tx_index
                  (λ t, (Example.tx_changes t, nil))
                  (λ t i, (default [] (Example.tx_operations t !! i), nil))
                  Example.tx_operations Example.toid
                  (λ seq t i, Example.toid seq (Example.tx_index t)
                                (N.of_nat (S i)))
                  Example.in_order Example.in_order_perm
                  (NewClaimableBalancesTransactionProcessor 7)
                  Example.create_and_claim _ eq_refl)).
Defined.

Lemma ProcessTransaction_only_adds_witness :
  sequence (Example.process (NewClaimableBalancesTransactionProcessor 7)
              Example.create_and_claim).2 = 7%N.
Proof.
  exact (proj1 (ProcessTransaction_only_adds id "" Example.hex
                  Example.tx_index
                  (λ t, (Example.tx_changes t, nil))
                  (λ t i, (default [] (Example.tx_operations t !! i), nil))
                  Example.tx_operations Example.toid
                  (λ seq t i, Example.toid seq (Example.tx_index t)
                                (N.of_nat (S i)))
                  Example.in_order Example.in_order_perm
                  (NewClaimableBalancesTransactionProcessor 7)
                  Example.create_and_claim _ _ eq_refl)).
Defined.

Definition processed_example : ClaimableBalancesTransactionProcessor :=
  (Example.process (NewClaimableBalancesTransactionProcessor 7)
     Example.create_and_claim).2.

Lemma processed_example_not_empty : claimableBalanceSet processed_example ≠ ∅.
Proof.
  intros Hempty. apply (f_equal (λ m, bool_decide (is_Some (m !! "b1")))) in Hempty.
  vm_compute in Hempty. discriminate.
Qed.

Lemma Commit_links_each_balance_once_witness :
  ∃ ids (toInternalID : gmap string Z) txrows oprows,
    (Example.commit Example.number_from_500 processed_example).2
    = CallCreate ids 100000
      :: CallNewTransactionBatch 100000
      :: (add_transaction_call <$> txrows)
      ++ CallExecTransaction
      :: CallNewOperationBatch 100000
      :: (add_operation_call <$> oprows) ++ [CallExecOperation] ∧
    ids ≡ₚ (map_to_list (claimableBalanceSet processed_example)).*1 ∧
    (∀ k, is_Some (claimableBalanceSet processed_example !! k) →
          is_Some (toInternalID !! k)).
Proof.
  destruct (Commit_links_each_balance_once Example.in_order
              Example.in_order_perm
              (Example.create Example.number_from_500) (λ _ w, w)
              (λ _ _ w, (nil, w)) (λ w, (nil, w)) (λ _ w, w)
              (λ _ _ w, (nil, w)) (λ w, (nil, w))
              processed_example tt
              (Example.commit Example.number_from_500 processed_example).1.1.2
              tt
              (Example.commit Example.number_from_500 processed_example).2
              eq_refl processed_example_not_empty)
    as (ids & toInternalID & txrows & oprows & Hlog & Hids & _ & Hall & _).
  exists ids, toInternalID, txrows, oprows.
  split; [exact Hlog|]. split; [exact Hids | exact Hall].
Defined.

Lemma Commit_edge_cases_witness :
  ∃ id p',
    Example.commit (λ _, ∅) processed_example
    = ((Some (errors_New
                ("no internal id found for claimable balance " +:+ id)), p'),
       tt, [CallCreate ["b1"] 100000]).
Proof.
  destruct (proj2 (Commit_edge_cases Example.in_order Example.in_order_perm
                     (Example.create (λ _, ∅)) (λ _ w, w)
                     (λ _ _ w, (nil, w)) (λ w, (nil, w)) (λ _ w, w)
                     (λ _ _ w, (nil, w)) (λ w, (nil, w))
                     processed_example tt)
              ∅ tt processed_example_not_empty eq_refl)
    as (id & p' & _ & _ & Hrun).
  - exists "b1". split; [|reflexivity]. vm_compute. eauto.
  - exists id, p'. exact Hrun.
Defined.

End claimable_balances.

(** ** services/ticker/internal/tickerdb: bulk insertion of trades *)

Module tickerdb.

(** [int(math.Ceil(float64(n) / float64(d)))].  For a positive [d] and the
    lengths a slice can have, the quotient rounds to a value strictly
    above the integer below it, so the result is the integer ceiling of
    [n / d]; the model is meant for positive [d] only. *)
Definition ceil_div (n d : nat) : nat := (n + d - 1) / d.

Section Trades.

Context {Trade Session : Type}.

(** The loop of [chunkifyDBTrades], with [n] iterations left;
    [sl[start:end]] is [take (end - start) (drop start sl)]. *)
Fixpoint chunkifyDBTrades_loop (sl : list Trade) (chunkSize length : nat)
    (n start : nat) (chunkedSlice : list (list Trade)) : list (list Trade) :=
  match n with
  | O => chunkedSlice
  | S n' =>
      let end_ := start + chunkSize in
      let end_ := if length <? end_ then length else end_ in
      let chunk := take (end_ - start) (drop start sl) in
      chunkifyDBTrades_loop sl chunkSize length n' end_
        (chunkedSlice ++ [chunk])
  end.

Definition chunkifyDBTrades (sl : list Trade) (chunkSize : nat)
  : list (list Trade) :=
  let numChunks := ceil_div (length sl) chunkSize in
  chunkifyDBTrades_loop sl chunkSize (length sl) numChunks 0 [].

(** [performInsertTrades] builds one [INSERT ... ON CONFLICT DO NOTHING]
    with a row of placeholders per trade and executes it with
    [s.ExecRaw]; the statement is identified by the trades it carries. *)
Variable ExecRaw_insert : list Trade → Session → error * Session.

(** An executed statement: the trades it carried and what [s.ExecRaw]
    returned for it. *)
Definition Statement : Type := list Trade * error.

Definition performInsertTrades (trades : list Trade)
  : M Session Statement error :=
  λ s, let '(err, s') := ExecRaw_insert trades s in (err, s', [(trades, err)]).

Fixpoint insert_chunks (chunks : list (list Trade))
  : M Session Statement error :=
  match chunks with
  | [] => mret nil
  | chunk :: chunks' =>
      err ← performInsertTrades chunk;
      if decide (err ≠ nil) then mret err else insert_chunks chunks'
  end.

Definition BulkInsertTrades (trades : list Trade)
  : M Session Statement error :=
  if length trades <=? 50 then performInsertTrades trades
  else insert_chunks (chunkifyDBTrades trades 50).

(** [executed s log s']: the statements of [log] are what the database
    was given, one after the other, from session state [s] to [s'], each
    with the result [s.ExecRaw] gave for it in the state it was sent in. *)
Inductive executed : Session → list Statement → Session → Prop :=
| executed_nil s : executed s [] s
| executed_cons s trades err s1 log s' :
    ExecRaw_insert trades s = (err, s1) →
    executed s1 log s' →
    executed s ((trades, err) :: log) s'.

Lemma ceil_div_0 d : 0 < d → ceil_div 0 d = 0.
Proof. intros Hd. unfold ceil_div. apply Nat.div_small. lia. Qed.

Lemma ceil_div_S n d :
  0 < d → 0 < n → ceil_div n d = S (ceil_div (n - d) d).
Proof.
  intros Hd Hn. unfold ceil_div.
  destruct (decide (n ≤ d)) as [Hle|Hgt].
  - replace (n - d) with 0 by lia.
    rewrite (Nat.div_small (0 + d - 1)) by lia.
    symmetry. apply (Nat.div_unique _ _ _ (n - 1)); lia.
  - replace (n + d - 1) with ((n - d + d - 1) + 1 * d) by lia.
    rewrite Nat.div_add by lia. lia.
Qed.

Lemma chunkifyDBTrades_loop_spec sl chunkSize n start acc :
  0 < chunkSize → start ≤ length sl →
  n = ceil_div (length sl - start) chunkSize →
  ∃ chunks,
    chunkifyDBTrades_loop sl chunkSize (length sl) n start acc
    = acc ++ chunks ∧
    concat chunks = drop start sl ∧
    length chunks = n ∧
    Forall (λ chunk, 0 < length chunk ≤ chunkSize) chunks ∧
    (∀ i chunk, chunks !! i = Some chunk → S i < n →
                length chunk = chunkSize).
Proof.
  intros Hc. revert start acc.
  induction n as [|n IH]; intros start acc Hstart Hn; simpl.
  - exists []. rewrite app_nil_r. repeat split; [|done|by intros].
    destruct (decide (length sl - start = 0)) as [Hz|Hnz].
    + rewrite drop_ge; [done|lia].
    + rewrite ceil_div_S in Hn by lia. done.
  - assert (0 < length sl - start) as Hpos.
    { destruct (decide (length sl - start = 0)) as [Hz|]; [|lia].
      rewrite Hz, ceil_div_0 in Hn by done. done. }
    rewrite ceil_div_S in Hn by lia. injection Hn as Hn.
    set (end_ := if length sl <? start + chunkSize
                 then length sl else start + chunkSize).
    assert (start < end_ ∧ end_ ≤ length sl ∧ end_ - start ≤ chunkSize ∧
            length sl - end_ = length sl - start - chunkSize ∧
            (0 < length sl - end_ → end_ - start = chunkSize))
      as (H1 & H2 & H3 & H4 & H5).
    { unfold end_. destruct (Nat.ltb_spec (length sl) (start + chunkSize)); lia. }
    destruct (IH end_ (acc ++ [take (end_ - start) (drop start sl)]))
      as (chunks & -> & Hcat & Hlen & Hall & Hfull); [done|by rewrite H4|].
    exists (take (end_ - start) (drop start sl) :: chunks).
    split; [by rewrite <- app_assoc|]. split; [|split; [|split]].
    + simpl. rewrite Hcat.
      replace end_ with (start + (end_ - start)) at 2 by lia.
      rewrite <- drop_drop. apply take_drop.
    + simpl. by rewrite Hlen.
    + constructor; [|done]. rewrite length_take, length_drop. lia.
    + intros [|i] chunk Hi Hlt; simpl in Hi.
      * injection Hi as <-. rewrite length_take, length_drop.
        assert (0 < n) as Hn0 by lia.
        assert (0 < length sl - end_); [|lia].
        destruct (decide (length sl - end_ = 0)) as [Hz|]; [|lia].
        rewrite <- H4, Hz, ceil_div_0 in Hn by done. lia.
      * apply (Hfull i); [done|lia].
Qed.

(** X15.  For a positive chunk size, [chunkifyDBTrades] cuts the slice
    into consecutive chunks: concatenated they give back the slice, none
    is empty or longer than the chunk size, all but the last have exactly
    the chunk size, and there are as many as the length divided by the
    chunk size, rounded up (none for an empty slice). *)
Theorem chunkifyDBTrades_spec sl chunkSize :
  0 < chunkSize →
  concat (chunkifyDBTrades sl chunkSize) = sl ∧
  length (chunkifyDBTrades sl chunkSize) = ceil_div (length sl) chunkSize ∧
  Forall (λ chunk, 0 < length chunk ≤ chunkSize)
    (chunkifyDBTrades sl chunkSize) ∧
  (∀ i chunk, chunkifyDBTrades sl chunkSize !! i = Some chunk →
              S i < length (chunkifyDBTrades sl chunkSize) →
              length chunk = chunkSize) ∧
  (sl = [] → chunkifyDBTrades sl chunkSize = []).
Proof.
  intros Hc. unfold chunkifyDBTrades.
  destruct (chunkifyDBTrades_loop_spec sl chunkSize
              (ceil_div (length sl) chunkSize) 0 [] Hc)
    as (chunks & -> & Hcat & Hlen & Hall & Hfull); [lia|by rewrite Nat.sub_0_r|].
  simpl. split; [done|]. split; [done|]. split; [done|]. split.
  - intros i chunk Hi Hlt. apply (Hfull i); [done|]. by rewrite <- Hlen.
  - intros ->. simpl in Hlen. rewrite ceil_div_0 in Hlen by done.
    by destruct chunks.
Qed.

Lemma insert_chunks_spec chunks s :
  let run := insert_chunks chunks s in
  executed s run.2 run.1.2 ∧
  run.2.*1 `prefix_of` chunks ∧
  (run.1.1 = nil → run.2.*1 = chunks ∧ Forall (λ st, st.2 = nil) run.2) ∧
  (run.1.1 ≠ nil →
   ∃ done_ failed,
     run.2 = done_ ++ [(failed, run.1.1)] ∧ Forall (λ st, st.2 = nil) done_).
Proof.
  revert s. induction chunks as [|chunk chunks IH]; intros s; simpl.
  - split; [constructor|]. split; [done|]. split; [done|]. by intros [].
  - cbv [mbind M_bind mret M_ret performInsertTrades].
    destruct (ExecRaw_insert chunk s) as [err s1] eqn:Hexec.
    destruct (decide (err ≠ nil)) as [Hne|Herr%dec_stable]; simpl.
    + split; [by econstructor; [|constructor]|].
      split; [by apply prefix_cons, prefix_nil|]. split; [done|].
      intros _. by exists [], chunk.
    + subst err. specialize (IH s1).
      destruct (insert_chunks chunks s1) as [[err2 s2] l2]. simpl in *.
      destruct IH as (Hexecd & Hpre & Hnil & Hfail).
      split; [by econstructor|].
      split; [by apply prefix_cons|]. split.
      * intros [Hsent Hall]%Hnil. split; [by rewrite <- Hsent|].
        by constructor.
      * intros (done_ & failed & -> & Hall)%Hfail.
        exists ((chunk, nil) :: done_), failed. split; [done|].
        by constructor.
Qed.

(** X16.  What [BulkInsertTrades] gives the database is a run of
    statements, each executed on the session the previous one left and
    recorded with the result [s.ExecRaw] gave; the session returned is the
    one the last statement left.  There is always at least one statement;
    every statement but the last was accepted, and the result of the last
    one is what [BulkInsertTrades] returns: a rejected statement ends the
    run, nothing is sent after it, and its error is the one returned.
    The statements carry the trades in order, at most 50 each: what was
    sent is an initial part of the trades and, when nil is returned, all
    of them, in one statement for up to 50 trades and in ⌈n/50⌉ non-empty
    statements otherwise.  An empty slice still costs one statement, with
    no rows. *)
Theorem BulkInsertTrades_spec trades s :
  let run := BulkInsertTrades trades s in
  let sent := run.2.*1 in
  executed s run.2 run.1.2 ∧
  (∃ done_ last,
     run.2 = done_ ++ [(last, run.1.1)] ∧ Forall (λ st, st.2 = nil) done_) ∧
  (∀ i st, run.2 !! i = Some st → st.2 ≠ nil →
           S i = length run.2 ∧ run.1.1 = st.2) ∧
  Forall (λ batch, length batch ≤ 50) sent ∧
  concat sent `prefix_of` trades ∧
  (run.1.1 = nil →
   concat sent = trades ∧
   length sent = if length trades <=? 50 then 1
                 else ceil_div (length trades) 50) ∧
  (50 < length trades → Forall (λ batch, 0 < length batch) sent) ∧
  (trades = [] → sent = [[]]).
Proof.
  intros run sent.
  assert (executed s run.2 run.1.2 ∧
          ∃ done_ last,
            run.2 = done_ ++ [(last, run.1.1)] ∧
            Forall (λ st, st.2 = nil) done_) as [Hexecd Hlast].
  { unfold run, BulkInsertTrades.
    destruct (Nat.leb_spec (length trades) 50) as [Hle|Hgt].
    - unfold performInsertTrades.
      destruct (ExecRaw_insert trades s) as [err s'] eqn:Hexec. simpl.
      split; [by econstructor; [|constructor]|]. by exists [], trades.
    - destruct (chunkifyDBTrades_spec trades 50) as (_ & Hlen & _); [lia|].
      destruct (insert_chunks_spec (chunkifyDBTrades trades 50) s)
        as (Hexecd & _ & Hnil & Hfail).
      split; [done|].
      destruct (decide ((insert_chunks (chunkifyDBTrades trades 50) s).1.1 = nil))
        as [Herr|Herr]; [|by apply Hfail].
      destruct (Hnil Herr) as [Hsent Hall].
      destruct (insert_chunks _ s) as [[err s'] log].
      simpl in Herr, Hsent, Hall |- *. subst err.
      destruct log as [|st log _] using rev_ind.
      + assert (0 < ceil_div (length trades) 50) as Hpos.
        { rewrite ceil_div_S by lia. lia. }
        simpl in Hsent. rewrite <- Hlen, <- Hsent in Hpos.
        by apply Nat.lt_irrefl in Hpos.
      + apply Forall_app in Hall as [Hall Hst%Forall_inv].
        destruct st as [last e]. simpl in Hst. subst e.
        by exists log, last. }
  split; [done|]. split; [done|]. split.
  { destruct Hlast as (done_ & last & -> & Hall).
    intros i st Hi Hne. rewrite length_app. simpl.
    destruct (decide (i < length done_)) as [Hlt|Hge].
    - rewrite lookup_app_l in Hi by done.
      by pose proof (Forall_lookup_1 _ _ _ _ Hall Hi).
    - rewrite lookup_app_r in Hi by lia.
      destruct (i - length done_) as [|k] eqn:Hk; [|done].
      injection Hi as <-. split; [lia|done]. }
  clear Hexecd Hlast. unfold sent, run, BulkInsertTrades.
  destruct (Nat.leb_spec (length trades) 50) as [Hle|Hgt].
  - unfold performInsertTrades.
    destruct (ExecRaw_insert trades s) as [err s'] eqn:Hexec. simpl.
    rewrite app_nil_r. split; [constructor; [done|constructor]|].
    split; [done|]. split; [done|]. split; [lia|]. by intros ->.
  - destruct (chunkifyDBTrades_spec trades 50) as (Hcat & Hlen & Hall & _);
      [lia|].
    destruct (insert_chunks_spec (chunkifyDBTrades trades 50) s)
      as (_ & [rest Hpre] & Hnil & _).
    simpl. rewrite Hpre in Hall. apply Forall_app in Hall as [Hall _].
    split; [|split; [|split; [|split]]].
    + eapply Forall_impl; [exact Hall|]. simpl. lia.
    + exists (concat rest). by rewrite <- concat_app, <- Hpre.
    + intros Herr. destruct (Hnil Herr) as [-> _]. done.
    + intros _. eapply Forall_impl; [exact Hall|]. simpl. lia.
    + intros ->. simpl in Hgt. lia.
Qed.

End Trades.

Example chunkifyDBTrades_doc :
  chunkifyDBTrades ["b"; "c"; "d"; "e"; "f"] 2 = [["b"; "c"]; ["d"; "e"]; ["f"]].
Proof. reflexivity. Qed.

Lemma chunkifyDBTrades_spec_witness :
  concat (chunkifyDBTrades (seq 0 120) 50) = seq 0 120.
Proof.
  apply (chunkifyDBTrades_spec (seq 0 120) 50). lia.
Defined.

(** A database that rejects any statement carrying trade number 70. *)
Definition rejects_70 (trades : list nat) (s : unit) : error * unit :=
  (if bool_decide (70 ∈ trades) then Some (errors_New "constraint violated")
   else nil, s).

Example BulkInsertTrades_stops :
  BulkInsertTrades rejects_70 (seq 0 120) tt
  = (Some (errors_New "constraint violated"), tt,
     [(seq 0 50, nil);
      (seq 50 50, Some (errors_New "constraint violated"))]).
Proof. vm_compute. reflexivity. Qed.

(** With trade 70 rejected, 120 trades go out in non-empty statements;
    had nil come back, all 120 would have been sent. *)
Lemma BulkInsertTrades_spec_witness :
  Forall (λ batch, 0 < length batch)
    (BulkInsertTrades rejects_70 (seq 0 120) tt).2.*1 ∧
  ∃ done_ last,
    (BulkInsertTrades rejects_70 (seq 0 120) tt).2
    = done_ ++ [(last, (BulkInsertTrades rejects_70 (seq 0 120) tt).1.1)] ∧
    Forall (λ st, st.2 = nil) done_.
Proof.
  destruct (BulkInsertTrades_spec rejects_70 (seq 0 120) tt)
    as (_ & Hlast & _ & _ & _ & _ & Hfull & _).
  split; [|exact Hlast].
  apply Hfull. vm_compute. lia.
Defined.

End tickerdb.

(** ** services/orbitr/internal/test/integration: parameter maps *)

Module integration.

Section Maps.

(** The order in which [range] visits a map is unspecified: any
    rearrangement of the entries. *)
Variable range_order : ∀ A : Type, list A → list A.
Hypothesis range_order_perm : ∀ A (l : list A), range_order A l ≡ₚ l.

Definition MergeMaps (maps : list (gmap string string)) : gmap string string :=
  foldl (λ merged m,
           foldl (λ merged '(k, v), <[k := v]> merged) merged
             (range_order _ (map_to_list m)))
    ∅ maps.

Definition mapToFlags (params : gmap string string) : list string :=
  foldl (λ args '(key, value),
           if decide (value = "") then args
           else args ++ ["--" +:+ key +:+ "=" +:+ value])
    [] (range_order _ (map_to_list params)).

(** Copying the entries of one map into another, in any order, is the
    union that prefers the copied map. *)
Lemma copy_entries (m merged : gmap string string) :
  foldl (λ merged '(k, v), <[k := v]> merged) merged
    (range_order _ (map_to_list m))
  = m ∪ merged.
Proof.
  apply map_eq. intros k.
  assert (Hgen : ∀ (l : list (string * string)) (acc : gmap string string),
            NoDup l.*1 →
            foldl (λ merged '(k, v), <[k := v]> merged) acc l !! k
            = match list_to_map (M:=gmap string string) l !! k with
              | Some v => Some v
              | None => acc !! k
              end).
  { induction l as [|[k' v'] l IH]; intros acc Hnd; simpl; [done|].
    apply NoDup_cons in Hnd as [Hk' Hnd]. rewrite IH by done.
    destruct (decide (k' = k)) as [->|Hne].
    - rewrite lookup_insert_eq.
      rewrite (not_elem_of_list_to_map_1 _ k) by done.
      by rewrite lookup_insert_eq.
    - rewrite (lookup_insert_ne (list_to_map l)) by done.
      destruct (list_to_map l !! k); [done|]. by rewrite lookup_insert_ne. }
  rewrite Hgen.
  - assert (list_to_map (M:=gmap string string)
              (range_order _ (map_to_list m)) = m) as ->.
    { rewrite <- (list_to_map_to_list m) at 2.
      apply list_to_map_proper; [|apply range_order_perm].
      rewrite range_order_perm. apply NoDup_fst_map_to_list. }
    rewrite lookup_union. by destruct (m !! k), (merged !! k).
  - rewrite range_order_perm. apply NoDup_fst_map_to_list.
Qed.

Lemma MergeMaps_snoc maps m : MergeMaps (maps ++ [m]) = m ∪ MergeMaps maps.
Proof. unfold MergeMaps. rewrite foldl_app. simpl. apply copy_entries. Qed.

(** X17.  [MergeMaps] gives each key the value of the last input map that
    has it, and no value to a key that none has; merging nothing gives the
    empty map. *)
Theorem MergeMaps_last_wins maps k :
  MergeMaps maps !! k = last (omap (λ m : gmap string string, m !! k) maps) ∧
  MergeMaps [] = ∅.
Proof.
  split; [|done].
  induction maps as [|m maps IH] using rev_ind; [done|].
  rewrite MergeMaps_snoc, lookup_union, IH, omap_app. simpl.
  destruct (m !! k) as [v|]; simpl.
  - rewrite last_snoc. by destruct (last _).
  - rewrite app_nil_r. by destruct (last _).
Qed.

Definition flag (entry : string * string) : string :=
  "--" +:+ entry.1 +:+ "=" +:+ entry.2.

Lemma mapToFlags_loop (l : list (string * string)) args :
  foldl (λ args '(key, value),
           if decide (value = "") then args
           else args ++ ["--" +:+ key +:+ "=" +:+ value]) args l
  = args ++ (flag <$> filter (λ entry, entry.2 ≠ "") l).
Proof.
  revert args. induction l as [|[key value] l IH]; intros args; simpl.
  - by rewrite app_nil_r.
  - rewrite IH. destruct (decide (value = "")) as [->|Hne].
    + by rewrite filter_cons_False by (simpl; auto).
    + rewrite filter_cons_True by done. by rewrite <- app_assoc.
Qed.

(** X18.  [mapToFlags] yields, in some order, exactly one [--key=value]
    argument per entry of the map whose value is not empty, and none for
    an entry whose value is empty.  So a later map given to [MergeMaps]
    that sets a key to the empty string removes that parameter from the
    command line. *)
Theorem mapToFlags_spec params :
  mapToFlags params
  ≡ₚ flag <$> filter (λ entry, entry.2 ≠ "") (map_to_list params) ∧
  (∀ key value, params !! key = Some value → value ≠ "" →
                flag (key, value) ∈ mapToFlags params) ∧
  (∀ maps overrides key,
     overrides !! key = Some "" →
     ∀ arg, arg ∈ mapToFlags (MergeMaps (maps ++ [overrides])) →
            ∃ key' value, key' ≠ key ∧ value ≠ "" ∧ arg = flag (key', value) ∧
                          MergeMaps (maps ++ [overrides]) !! key' = Some value).
Proof.
  assert (Hperm : ∀ params,
            mapToFlags params
            ≡ₚ flag <$> filter (λ entry, entry.2 ≠ "") (map_to_list params)).
  { intros ps. unfold mapToFlags. rewrite mapToFlags_loop. simpl.
    by rewrite range_order_perm. }
  split; [done|]. split.
  - intros key value Hk Hne. rewrite Hperm.
    apply list_elem_of_fmap. exists (key, value). split; [done|].
    apply list_elem_of_filter. split; [done|]. by apply elem_of_map_to_list.
  - intros maps overrides key Hover arg. rewrite Hperm.
    intros ([key' value] & -> & [Hne Hin%elem_of_map_to_list]%list_elem_of_filter)
             %list_elem_of_fmap.
    simpl in Hne. exists key', value. split; [|done].
    intros ->. rewrite MergeMaps_snoc, lookup_union, Hover in Hin.
    destruct (MergeMaps maps !! key); cbv in Hin; congruence.
Qed.

End Maps.

Definition in_order (A : Type) (l : list A) : list A := l.

Lemma in_order_rearranges A (l : list A) : in_order A l ≡ₚ l.
Proof. done. Qed.

Example mapToFlags_drops_override :
  mapToFlags in_order
    (MergeMaps in_order
       [ {[ "port" := "8000"; "ingest" := "true" ]};
         {[ "ingest" := ""; "admin-port" := "0" ]} ])
  ≡ₚ ["--admin-port=0"; "--port=8000"].
Proof. vm_compute. by rewrite ?(Permutation_swap "--port=8000"). Qed.

Lemma MergeMaps_last_wins_witness :
  MergeMaps in_order
    [ {[ "port" := "8000" ]}; {[ "port" := "9000"; "db" := "x" ]} ] !! "port"
  = Some "9000".
Proof.
  exact (proj1 (MergeMaps_last_wins in_order in_order_rearranges
                  [ {[ "port" := "8000" ]}; {[ "port" := "9000"; "db" := "x" ]} ]
                  "port")).
Defined.

Lemma mapToFlags_spec_witness :
  flag ("port", "8000") ∈ mapToFlags in_order {[ "port" := "8000" ]}.
Proof.
  apply (mapToFlags_spec in_order in_order_rearranges {[ "port" := "8000" ]}).
  - reflexivity.
  - discriminate.
Defined.

End integration.

(** ** clients/orbitrclient: error helpers *)

Module orbitrclient.

(** [problem.P] and the client's [Error], as far as the helpers read
    them. *)
Record Problem : Type := {
  Type_ : string;
  Title : string;
  Status : Z;
  Detail : string;
}.

Record Error : Type := {
  Error_Problem : Problem;
}.

(** A non-nil [error] as the helpers can see it: a [*Error] (the pointer
    itself may be nil), an [Error] value, a value of some other type, or
    an error annotated by [errors.Wrap]. *)
Inductive err_value : Type :=
| ErrorPointer (p : option Error)
| ErrorValue (e : Error)
| OtherError (msg : string)
| Wrapped (msg : string) (cause : err_value).

Definition error : Type := option err_value.

Definition errors_Wrap (err : error) (msg : string) : error :=
  Wrapped msg <$> err.

(** [errors.Cause]: the innermost error of a chain of wrappers. *)
Fixpoint cause_of (e : err_value) : err_value :=
  match e with
  | Wrapped _ cause => cause_of cause
  | _ => e
  end.

Definition errors_Cause (err : error) : error := cause_of <$> err.

(** The type switch shared by both helpers; the result is the [*Error]
    it leaves in [hErr]. *)
Definition GetError (err : error) : option Error :=
  let err := errors_Cause err in
  match err with
  | Some (ErrorPointer e) => e
  | Some (ErrorValue err) => Some err
  | _ => None
  end.

Definition IsNotFoundError (err : error) : bool :=
  let hErr : option Error :=
    match errors_Cause err with
    | Some (ErrorPointer err) => err
    | Some (ErrorValue err) => Some err
    | _ => None
    end in
  match hErr with
  | None => false
  | Some hErr =>
      bool_decide (Type_ (Error_Problem hErr)
                   = "https://lantah.network/orbitr-errors/not_found")
  end.

Lemma errors_Cause_Wrap err msg :
  errors_Cause (errors_Wrap err msg) = errors_Cause err.
Proof. by destruct err. Qed.

(** X19.  [IsNotFoundError] holds exactly when [GetError] finds a client
    error whose problem type is the not_found URL.  Both look through any
    number of [errors.Wrap] annotations, accept the error by pointer or by
    value, and treat nil, a nil [*Error] and errors of other types as
    "no client error". *)
Theorem IsNotFoundError_iff err :
  (IsNotFoundError err = true ↔
   ∃ e, GetError err = Some e ∧
        Type_ (Error_Problem e)
        = "https://lantah.network/orbitr-errors/not_found") ∧
  (∀ msg, IsNotFoundError (errors_Wrap err msg) = IsNotFoundError err ∧
          GetError (errors_Wrap err msg) = GetError err) ∧
  (∀ e, GetError (Some (ErrorPointer (Some e))) = Some e ∧
        GetError (Some (ErrorValue e)) = Some e) ∧
  GetError None = None ∧
  GetError (Some (ErrorPointer None)) = None ∧
  (∀ msg, GetError (Some (OtherError msg)) = None).
Proof.
  split; [|split; [|by repeat split]].
  - unfold IsNotFoundError, GetError.
    destruct (errors_Cause err) as [[[e|]|e|msg|msg cause]|]; simpl;
      rewrite ?bool_decide_eq_true; split;
      try done; try (intros (e' & [= <-] & ?); done); try (by eauto);
      by intros (? & ? & _).
  - intros msg. unfold IsNotFoundError, GetError.
    by rewrite errors_Cause_Wrap.
Qed.

Definition not_found : Error :=
  {| Error_Problem :=
       {| Type_ := "https://lantah.network/orbitr-errors/not_found";
          Title := "Resource Missing"; Status := 404; Detail := "" |} |}.

Lemma IsNotFoundError_iff_witness :
  IsNotFoundError
    (errors_Wrap (errors_Wrap (Some (ErrorValue not_found)) "loading account")
       "submitting")
  = true.
Proof.
  apply (IsNotFoundError_iff
           (errors_Wrap (errors_Wrap (Some (ErrorValue not_found))
                           "loading account") "submitting")).
  exists not_found. split; reflexivity.
Defined.

End orbitrclient.
